(** * Retrieval fusion and allowlist enforcement of the product chatbot

    A shallow embedding of the anti-hallucination pipeline of [app.py]
    (model-token detection, allowlist enforcement, reciprocal-rank fusion,
    allowlist merging, prompt trimming, BM25 scoring) and of the three-question
    requirement dialogue of [decision.py], together with the properties of
    these functions that the specification states.

    Conventions.
    - A Python [str] is the list of its code points ([pystr]).
    - Python [int]s are [Z]; slices with a negative bound count from the end,
      as in Python.
    - Python's Unicode tables are not part of the repository: the behaviour of
      [str.strip], [str.lower], [\d] and [\w] on ASCII is written out, and is
      taken from the class [Unicode] elsewhere.
    - The module-level [Config] class of [app.py] reads its values from the
      environment: it is the class [Config], with the defaults of the source
      as one instance. *)

From Stdlib Require Import ZArith NArith QArith Reals Lra List String Ascii Lia.
From Stdlib Require Import Sorted.
From Stdlib Require DecimalString.
From stdpp Require Import base list gmap sets strings.
Import ListNotations.

(** ** Python strings *)

Abbreviation pystr := (list N).

Module Utf8.

(** Decoder for the string literals of this file (well-formed UTF-8). *)
Fixpoint decode (pending : nat) (acc : N) (bs : list N) : pystr :=
  match bs with
  | [] => []
  | b :: r =>
      match pending with
      | O =>
          if (b <? 128)%N then b :: decode 0 0%N r
          else if (b <? 224)%N then decode 1 (b - 192)%N r
          else if (b <? 240)%N then decode 2 (b - 224)%N r
          else decode 3 (b - 240)%N r
      | S O => (acc * 64 + (b - 128))%N :: decode 0 0%N r
      | S p => decode p (acc * 64 + (b - 128))%N r
      end
  end.

Definition bytes (s : string) : list N :=
  List.map N_of_ascii (list_ascii_of_string s).

End Utf8.

Definition py (s : string) : pystr := Utf8.decode 0 0%N (Utf8.bytes s).

(** The behaviour of Python's Unicode database outside ASCII.  [uni_lower]
    receives the code point with the text before it (reversed) and after it,
    since [str.lower] has one contextual rule (Greek final sigma).  The one
    fact about the tables that is used: no decimal digit is white space. *)
Class Unicode := {
  uni_space : N -> bool;
  uni_decimal : N -> bool;
  uni_alnum : N -> bool;
  uni_lower : pystr -> N -> pystr -> pystr;
  uni_decimal_not_space : forall c, uni_decimal c = true -> uni_space c = false
}.

Definition in_range (lo hi c : N) : bool := ((lo <=? c) && (c <=? hi))%N.

Definition is_ascii (c : N) : bool := (c <? 128)%N.
Definition ascii_upper (c : N) : bool := in_range 65 90 c.
Definition ascii_lower (c : N) : bool := in_range 97 122 c.
Definition ascii_digit (c : N) : bool := in_range 48 57 c.
Definition ascii_space (c : N) : bool := in_range 9 13 c || in_range 28 32 c.

Definition HYPHEN : N := 45.
Definition UNDERSCORE : N := 95.
Definition NEWLINE : N := 10.

Section Str.
Context `{Unicode}.

(** [str.isspace] of one character. *)
Definition is_space (c : N) : bool :=
  if is_ascii c then ascii_space c else uni_space c.

Fixpoint lstrip (s : pystr) : pystr :=
  match s with
  | c :: r => if is_space c then lstrip r else s
  | [] => []
  end.

Definition rstrip (s : pystr) : pystr := rev (lstrip (rev s)).

Definition strip (s : pystr) : pystr := rstrip (lstrip s).

(** Nothing to strip on the left: the text is empty or starts with a
    character that is no white space. *)
Definition left_clean (s : pystr) : Prop :=
  match s with [] => True | c :: _ => is_space c = false end.

Fixpoint lower_from (before : pystr) (s : pystr) : pystr :=
  match s with
  | [] => []
  | c :: r =>
      (if is_ascii c then [if ascii_upper c then (c + 32)%N else c]
       else uni_lower before c r) ++ lower_from (c :: before) r
  end.

(** [str.lower]. *)
Definition lower (s : pystr) : pystr := lower_from [] s.

Fixpoint startswith (p s : pystr) : bool :=
  match p, s with
  | [], _ => true
  | a :: p', b :: s' => (a =? b)%N && startswith p' s'
  | _ :: _, [] => false
  end.

Definition endswith (p s : pystr) : bool := startswith (rev p) (rev s).

(** [k in t] for strings. *)
Fixpoint contains (k t : pystr) : bool :=
  startswith k t || match t with [] => false | _ :: r => contains k r end.

Fixpoint join (sep : pystr) (l : list pystr) : pystr :=
  match l with
  | [] => []
  | [x] => x
  | x :: r => x ++ sep ++ join sep r
  end.

(** [l[:n]] and [l[n:]] for a Python int [n]. *)
Definition slice_to {A} (n : Z) (l : list A) : list A :=
  if (0 <=? n)%Z then firstn (Z.to_nat n) l
  else firstn (Z.to_nat (Z.of_nat (length l) + n)) l.

Definition slice_from {A} (n : Z) (l : list A) : list A :=
  if (0 <=? n)%Z then skipn (Z.to_nat n) l
  else skipn (Z.to_nat (Z.of_nat (length l) + n)) l.

Definition nonempty {A} (l : list A) : bool :=
  match l with [] => false | _ => true end.

(** *** [normalize_key] *)

Definition az09 (c : N) : bool := ascii_lower c || ascii_digit c.

(** [re.sub(r"[^a-z0-9]", "", s)] after [strip] and [lower]. *)
Definition normalize_key (s : pystr) : pystr :=
  List.filter az09 (lower (strip s)).

(** ** The model-token pattern

    MODEL_REGEX is  \b ( [A-Za-z]{1,} \-? \d{2,} [A-Za-z0-9\-]* ) \b  (spaces added), matched the way
    Python's backtracking matcher does: every quantifier is greedy and gives
    characters back one at a time. *)

Definition is_letter (c : N) : bool := ascii_upper c || ascii_lower c.

(** [\d]: a Unicode decimal digit. *)
Definition is_d (c : N) : bool :=
  if is_ascii c then ascii_digit c else uni_decimal c.

(** [[A-Za-z0-9\-]]. *)
Definition is_tail (c : N) : bool :=
  is_letter c || ascii_digit c || (c =? HYPHEN)%N.

(** [\w]: alphanumeric or underscore. *)
Definition is_w (c : N) : bool :=
  if is_ascii c then is_letter c || ascii_digit c || (c =? UNDERSCORE)%N
  else uni_alnum c || uni_decimal c.

Definition opt_w (c : option N) : bool :=
  match c with Some c => is_w c | None => false end.

(** [\b] between the character before and the character after a position. *)
Definition word_boundary (before after : option N) : bool :=
  xorb (opt_w before) (opt_w after).

Fixpoint run (p : N -> bool) (s : pystr) : nat :=
  match s with
  | c :: r => if p c then S (run p r) else O
  | [] => O
  end.

(** The first success among [f hi], [f (hi-1)], ..., [f lo]. *)
Fixpoint try_down {A} (f : nat -> option A) (lo hi : nat) : option A :=
  if (hi <? lo)%nat then None
  else match f hi with
       | Some x => Some x
       | None => match hi with O => None | S h => try_down f lo h end
       end.

Definition last_or (d : option N) (s : pystr) : option N :=
  match last (A:=N) s with Some c => Some c | None => d end.

(** The tail [A-Za-z0-9\-]* and the closing \b; [before] is the last digit. *)
Definition m_tail (before : option N) (rest : pystr) : option nat :=
  try_down
    (fun t =>
       if word_boundary (last_or before (firstn t rest)) (head (skipn t rest))
       then Some t else None)
    0 (run is_tail rest).

(** [\d{2,}] and what follows. *)
Definition m_digits (rest : pystr) : option nat :=
  try_down
    (fun m =>
       match m_tail (last (firstn m rest)) (skipn m rest) with
       | Some t => Some (m + t)%nat
       | None => None
       end)
    2 (run is_d rest).

(** [\-?] and what follows. *)
Definition m_hyphen (rest : pystr) : option nat :=
  match rest with
  | c :: r =>
      if (c =? HYPHEN)%N then
        match m_digits r with
        | Some n => Some (S n)
        | None => m_digits rest
        end
      else m_digits rest
  | [] => m_digits rest
  end.

(** [[A-Za-z]{1,}] and what follows. *)
Definition m_letters (s : pystr) : option nat :=
  try_down
    (fun j =>
       match m_hyphen (skipn j s) with
       | Some n => Some (j + n)%nat
       | None => None
       end)
    1 (run is_letter s).

(** One attempt of the pattern at a position: the text matched. *)
Definition match_here (before : option N) (s : pystr) : option pystr :=
  if word_boundary before (head s) then
    match m_letters s with
    | Some e => Some (firstn e s)
    | None => None
    end
  else None.

(** [MODEL_REGEX.findall]: the leftmost matches, none overlapping; [skip]
    counts the characters of the last match still to be passed over. *)
Fixpoint scan (before : option N) (skip : nat) (s : pystr) : list pystr :=
  match s with
  | [] => []
  | c :: r =>
      match skip with
      | S k => scan (Some c) k r
      | O =>
          match match_here before s with
          | Some m => m :: scan (Some c) (length m - 1) r
          | None => scan (Some c) 0 r
          end
      end
  end.

Definition MODEL_REGEX_findall (s : pystr) : list pystr := scan None 0 s.

(** What the pattern describes: letters, an optional hyphen, two digits or
    more, then letters, ASCII digits and hyphens. *)
Definition model_shape (m : pystr) : Prop :=
  exists L Hy D T,
    m = L ++ Hy ++ D ++ T /\ L <> [] /\
    Forall (fun c => is_letter c = true) L /\
    (Hy = [] \/ Hy = [HYPHEN]) /\
    (2 <= length D)%nat /\
    Forall (fun c => is_d c = true) D /\
    Forall (fun c => is_tail c = true) T.

(** The number of [\d] characters of a text. *)
Definition count_d (s : pystr) : nat := length (List.filter is_d s).

Definition MODEL_REGEX_search (s : pystr) : option pystr :=
  head (MODEL_REGEX_findall s).

Definition has_model_token (text : pystr) : bool :=
  nonempty text && bool_decide (is_Some (MODEL_REGEX_search text)).

(** ** Case-insensitive first-occurrence lists

    The loop
    [x = x.strip(); if not x: continue; k = x.lower();
     if k in seen: continue; seen.add(k); out.append(x)]
    that [extract_model_mentions], [build_allowlist_from_sources] and the
    allowlist merge share. *)
Fixpoint add_all (seen : gset pystr) (l : list pystr) : list pystr :=
  match l with
  | [] => []
  | x :: r =>
      let x := strip x in
      if nonempty x then
        let k := lower x in
        if bool_decide (k ∈ seen) then add_all seen r
        else x :: add_all ({[ k ]} ∪ seen) r
      else add_all seen r
  end.

Definition extract_model_mentions (text : pystr) : list pystr :=
  if nonempty text then add_all ∅ (MODEL_REGEX_findall text) else [].

End Str.

(** ** Configuration

    The attributes of [Config] that the functions below read. *)
Class Config := {
  STRICT_DECISION_ALLOWLIST : bool;
  ALLOWLIST_MAX_ITEMS : Z;
  FUSION_ENABLED : bool;
  FUSION_RRF_K : Z;
  FUSION_VEC_TOPN : Z;
  FUSION_BM25_TOPN : Z;
  FUSION_FORCE_NONEMPTY : bool;
  FUSION_LOWCONF_ALLOW_ALL : bool;
  FUSION_LOWCONF_MIN_ALLOW : Z
}.

(** ** Allowlist enforcement *)

Section Enforce.
Context `{Unicode} `{Config}.

(** The reply when there is no candidate model at all. *)
Definition no_candidates_message : pystr :=
  py "我可以幫你選型，但目前資料庫/產品文件沒有足夠的候選型號可供推薦，因此我不會亂編型號。

請你補 1~2 個關鍵資訊後我再幫你配對：
1) 你要量測的項目（光譜/輝度/照度/光強度/反射率/穿透率/PPFD…）
2) 主要波段或對象（UVC LED / UVA / VIS / 玻璃 / 鏡面…）
".

Definition blocked_head : pystr :=
  py "⚠️ 為避免選型亂編，我只能從資料庫/產品文件中「確實存在」的型號做推薦。
但我剛剛那段回覆中出現了資料庫不存在的型號，因此已被系統擋下。

目前可用的候選型號清單如下：
".

Definition blocked_foot : pystr :=
  py "

請你回覆：你希望我從以上清單中，偏向「研發」還是「產線/品管」用途？".

Definition LIST_SEP : pystr := py "、".

(** The reply that replaces a blocked answer: it lists [allowlist]. *)
Definition blocked_message (allowlist : list pystr) : pystr :=
  blocked_head ++ join LIST_SEP allowlist ++ blocked_foot.

(** [allow_norm = {normalize_key(x) for x in (allowlist or []) if x}]. *)
Definition allow_norm (allowlist : list pystr) : gset pystr :=
  list_to_set (List.map normalize_key (List.filter nonempty allowlist)).

(** The mentions of [answer] whose normalized key is not allowed ([bad]). *)
Definition bad_mentions (answer : pystr) (allowlist : list pystr) : list pystr :=
  List.filter (fun m => negb (bool_decide (normalize_key m ∈ allow_norm allowlist)))
    (extract_model_mentions answer).

(** Returns the text to send, whether the answer was blocked, and the
    mentions that caused it. *)
Definition enforce_allowlist_or_block (answer : pystr) (allowlist : list pystr)
  : pystr * bool * list pystr :=
  if negb STRICT_DECISION_ALLOWLIST then (answer, false, [])
  else if bool_decide (allow_norm allowlist = ∅) then (no_candidates_message, true, [])
  else
    let bad := bad_mentions answer allowlist in
    if nonempty bad then (blocked_message allowlist, true, bad)
    else (answer, false, []).

End Enforce.

(** ** Reciprocal-rank fusion *)

(** The [score] dictionary, in insertion order (Python dictionaries keep it,
    and [sorted] is stable).  Scores are exact rationals here; the source
    adds floats. *)
Abbreviation scores := (list (pystr * Q)).

Section Fusion.
Context `{Unicode} `{Config}.

(** [score[item] += v] on a [defaultdict(float)]. *)
Fixpoint bump (item : pystr) (v : Q) (score : scores) : scores :=
  match score with
  | [] => [(item, (0 + v)%Q)]
  | (x, q) :: r =>
      if bool_decide (x = item) then (x, (q + v)%Q) :: r
      else (x, q) :: bump item v r
  end.

(** The inner loop over one ranked list, [rank] being the rank of its head.
    [None] is the [ZeroDivisionError] of [1.0 / float(k + rank)]. *)
Fixpoint score_list (k rank : Z) (lst : list pystr) (score : scores)
  : option scores :=
  match lst with
  | [] => Some score
  | item :: r =>
      if nonempty item then
        if (k + rank =? 0)%Z then None
        else score_list k (rank + 1) r (bump item (/ inject_Z (k + rank))%Q score)
      else score_list k (rank + 1) r score
  end.

Fixpoint score_lists (k : Z) (ranked_lists : list (list pystr)) (score : scores)
  : option scores :=
  match ranked_lists with
  | [] => Some score
  | lst :: r =>
      match score_list k 1 lst score with
      | Some score' => score_lists k r score'
      | None => None
      end
  end.

(** [sorted(items, key=lambda x: x[1], reverse=True)]: by descending score,
    ties in their original order. *)
Fixpoint insert_desc (x : pystr * Q) (l : scores) : scores :=
  match l with
  | [] => [x]
  | y :: r =>
      if Qle_bool (snd y) (snd x) then x :: l
      else y :: insert_desc x r
  end.

Definition sort_desc (l : scores) : scores := foldr insert_desc [] l.

Definition rrf_fuse (ranked_lists : list (list pystr)) (k topn : Z)
  : option (list pystr) :=
  match score_lists k ranked_lists [] with
  | None => None
  | Some score =>
      if nonempty score then Some (List.map fst (slice_to topn (sort_desc score)))
      else Some []
  end.


(** The [meta] dictionary of [build_fused_allowlist].  [overlap_ratio] is kept
    exact; the source stores it rounded to three decimals for display. *)
Record FusionMeta := {
  bm25_candidates : list pystr;
  vec_candidates : list pystr;
  overlap : nat;
  overlap_ratio : Q;
  k_allow : Z;
  low_confidence : bool
}.

Inductive Meta :=
  | MetaDisabled
  | MetaEnabled (m : FusionMeta).

(** [len(set(lower bm) & set(lower vec))]. *)
Definition overlap_of (bm vec : list pystr) : nat :=
  size ((list_to_set (List.map lower bm) : gset pystr)
          ∩ list_to_set (List.map lower vec)).

(** [overlap / float(max(1, min(len(bm), len(vec), 8)))]: a quotient of two
    small integers, compared below with 0 and 0.25 only, for which the float
    comparison and the exact one agree. *)
Definition overlap_ratio_of (bm vec : list pystr) : Q :=
  (Z.of_nat (overlap_of bm vec)
     # Pos.of_nat (Nat.max 1 (Nat.min (Nat.min (length bm) (length vec)) 8)))%Q.

Definition k_allow_of (ratio : Q) : Z :=
  if Qle_bool (1 # 4) ratio then 8
  else if negb (Qle_bool ratio 0) then 12
  else Z.max FUSION_LOWCONF_MIN_ALLOW 12.

(** [a or b] on lists. *)
Definition list_or {A} (a b : list A) : list A := if nonempty a then a else b.

(** [known_models] is the field of the product index; [rag_candidates limit]
    stands for [extract_candidate_models_from_rag(md_index, rag_docs, limit)],
    which reads the file system. *)
Definition vec_candidates_of (rag_candidates : Z -> list pystr) : list pystr :=
  rag_candidates (Z.max 12 FUSION_VEC_TOPN).

Definition bm_candidates_of (bm25_models : list pystr) : list pystr :=
  slice_to (Z.max 12 FUSION_BM25_TOPN) bm25_models.

(** The call of [rrf_fuse] in [build_fused_allowlist]. *)
Definition fused_of (bm vec : list pystr) : option (list pystr) :=
  rrf_fuse [bm; vec] (Z.max 10 FUSION_RRF_K) (Z.max 8 ALLOWLIST_MAX_ITEMS).

Definition build_fused_allowlist (known_models : list pystr)
    (rag_candidates : Z -> list pystr) (bm25_models : list pystr)
  : option (list pystr * Meta) :=
  if negb FUSION_ENABLED then Some ([], MetaDisabled)
  else
    let vec := vec_candidates_of rag_candidates in
    let bm := bm_candidates_of bm25_models in
    match fused_of bm vec with
    | None => None
    | Some fused =>
        let ratio := overlap_ratio_of bm vec in
        let k := k_allow_of ratio in
        let allow := slice_to (Z.min ALLOWLIST_MAX_ITEMS k) fused in
        let fallback := negb (nonempty allow) && FUSION_FORCE_NONEMPTY in
        let allow' :=
          if fallback then
            if FUSION_LOWCONF_ALLOW_ALL && nonempty known_models
            then slice_to ALLOWLIST_MAX_ITEMS known_models
            else list_or (slice_to ALLOWLIST_MAX_ITEMS bm)
                         (slice_to ALLOWLIST_MAX_ITEMS vec)
          else allow in
        Some (allow',
              MetaEnabled {| bm25_candidates := slice_to 10 bm;
                             vec_candidates := slice_to 10 vec;
                             overlap := overlap_of bm vec;
                             overlap_ratio := ratio;
                             k_allow := k;
                             low_confidence := fallback |})
    end.

(** ** Allowlist from the selected sources, and the merge of the chat handler *)

(** A product card, as far as [build_allowlist_from_sources] reads it. *)
Record Card := { _model : pystr; title : pystr }.

Definition PRODUCT_PREFIX : pystr := py "product_".
Definition MD_SUFFIX : pystr := py ".md".

Definition card_key (c : Card) : list pystr :=
  let m := strip (_model c) in
  let t := strip (title c) in
  if nonempty m && has_model_token m then [m]
  else if nonempty t && has_model_token t then [t]
  else [].

(** [fn[len("product_") : -len(".md")]] for the file names that qualify. *)
Definition file_stem (fn : pystr) : list pystr :=
  if startswith PRODUCT_PREFIX fn && endswith MD_SUFFIX (lower fn)
  then [slice_from 8 (slice_to (-3) fn)] else [].

Definition build_allowlist_from_sources (relevant_docs : list Card)
    (used_md_files : list pystr) : list pystr :=
  let allow := add_all ∅ (concat (List.map card_key relevant_docs)
                            ++ concat (List.map file_stem used_md_files)) in
  slice_to ALLOWLIST_MAX_ITEMS (List.filter (fun a => (3 <=? length a)%nat) allow).

(** The merge in the chat handler: the allowlist given to the prompt and to
    the enforcement, and whether [forced_allow_all] was set. *)
Definition merge_allowlists (base_allow fused_allow known_models : list pystr)
  : list pystr * bool :=
  let merged := add_all ∅ (base_allow ++ fused_allow) in
  let forced := negb (nonempty merged) && FUSION_FORCE_NONEMPTY
                && nonempty known_models in
  let merged' := if forced then slice_to ALLOWLIST_MAX_ITEMS known_models
                 else merged in
  (slice_to ALLOWLIST_MAX_ITEMS merged', forced).

End Fusion.

(** ** Prompt trimming *)

Section Trim.
Context `{Unicode}.

Definition ELLIPSIS : pystr := py "…".

(** [truncate_text]. *)
Definition truncate_text (s : pystr) (max_chars : Z) : pystr :=
  let s := strip s in
  if negb (nonempty s) then []
  else if (Z.of_nat (length s) <=? max_chars)%Z then s
  else rstrip (slice_to (max_chars - 1) s) ++ ELLIPSIS.

Definition RAG_TAG : pystr := py "【向量庫片段：".
Definition RAG_TAG2 : pystr := py "【資料片段：".
Definition DB_TAG : pystr := py "【DB 產品摘要：".
Definition DOC_TAG : pystr := py "【產品文件：".

Definition is_rag (b : pystr) : bool := startswith RAG_TAG b || startswith RAG_TAG2 b.
Definition is_db (b : pystr) : bool := startswith DB_TAG b.

(** The blocks that no stage before the last may drop. *)
Definition is_core (b : pystr) : bool := negb (is_rag b) && negb (is_db b).

(** [b.split("\n", 1)] when it has two parts. *)
Fixpoint split_line (b : pystr) : option (pystr * pystr) :=
  match b with
  | [] => None
  | c :: r =>
      if (c =? NEWLINE)%N then Some ([], r)
      else match split_line r with
           | Some (h, body) => Some (c :: h, body)
           | None => None
           end
  end.

(** The body of one iteration of the loop that shortens document blocks. *)
Definition shorten_doc (b : pystr) : pystr :=
  if startswith DOC_TAG b then
    match split_line b with
    | Some (h, body) => h ++ [NEWLINE] ++ truncate_text body 700
    | None => b
    end
  else b.

(** [blocks.pop(idxs[-1])], [idxs] being the indices of the blocks of a kind:
    [None] when there is none. *)
Fixpoint pop_last (kind : pystr -> bool) (blocks : list pystr)
  : option (list pystr) :=
  match blocks with
  | [] => None
  | x :: r =>
      match pop_last kind r with
      | Some r' => Some (x :: r')
      | None => if kind x then Some r else None
      end
  end.

Section Loops.
Variable build : list pystr -> pystr.
Variable max_chars : Z.

Definition over (blocks : list pystr) : bool :=
  (max_chars <? Z.of_nat (length (build blocks)))%Z.

(** [while len(p) > max_chars: ... if not idxs: break; blocks.pop(idxs[-1])];
    every iteration removes a block, so [length blocks] iterations suffice
    ([drop_kind_exit] below). *)
Fixpoint drop_kind (kind : pystr -> bool) (fuel : nat) (blocks : list pystr)
  : list pystr :=
  match fuel with
  | O => blocks
  | S n =>
      if over blocks then
        match pop_last kind blocks with
        | Some blocks' => drop_kind kind n blocks'
        | None => blocks
        end
      else blocks
  end.

(** [while len(p) > max_chars and len(blocks) > 2: blocks.pop()]. *)
Fixpoint drop_trailing (fuel : nat) (blocks : list pystr) : list pystr :=
  match fuel with
  | O => blocks
  | S n =>
      if over blocks && (2 <? length blocks)%nat
      then drop_trailing n (removelast blocks)
      else blocks
  end.

Definition prompt_guard_trim (context_blocks : list pystr) : list pystr * pystr :=
  let blocks := context_blocks in
  if negb (over blocks) then (blocks, build blocks)
  else
    let blocks := drop_kind is_rag (length blocks) blocks in
    if negb (over blocks) then (blocks, build blocks)
    else
      let blocks := drop_kind is_db (length blocks) blocks in
      if negb (over blocks) then (blocks, build blocks)
      else
        let blocks := List.map shorten_doc blocks in
        let blocks := drop_trailing (length blocks) blocks in
        (blocks, build blocks).

End Loops.
End Trim.

(** ** BM25 scoring

    The scoring loop of [BM25CorpusIndex.search] and
    [ProductMDIndex.bm25_rank_models] (the two are the same text), over the
    real numbers: the source computes in floats. *)

Module BM25.
Section Score.
Local Open Scope R_scope.

(** [k1] and [b] of the index ([Config.BM25_K1], [Config.BM25_B]). *)
Variables k1 b : R.

(** Number of documents, and the stored average length. *)
Variable N : nat.
Variable stored_avgdl : R.

(** [avgdl = self.avgdl if self.avgdl > 0 else 1.0]. *)
Definition avgdl : R := if Rlt_dec 0 stored_avgdl then stored_avgdl else 1.

Definition idf (df : nat) : R :=
  ln (1 + (INR N - INR df + 0.5) / (INR df + 0.5)).

(** [(1.0 + 0.15 * min(4, qf - 1))]. *)
Definition query_boost (qf : nat) : R :=
  1 + 0.15 * IZR (Z.min 4 (Z.of_nat qf - 1)).

(** What one query term adds to the score of a document of length [dl] in
    which it occurs [f] times ([df] documents have it, the query has it [qf]
    times); the two [continue]s add nothing. *)
Definition term_score (dl df f qf : nat) : R :=
  if (df <=? 0)%nat then 0
  else if (f <=? 0)%nat then 0
  else
    let denom := INR f + k1 * (1 - b + b * (INR dl / avgdl)) in
    idf df * (INR f * (k1 + 1) / denom) * query_boost qf.


End Score.
End BM25.

(** ** The requirement dialogue ([decision.py]) *)

Module Decision.

(** What [_is_control] returns: ['reset'], ['cancel'] or ['']. *)
Inductive Control := Reset | Cancel | NoControl.

Record Question := { key : string; q : pystr }.

(** The state dictionary made by [new_state]. *)
Record State := {
  active : bool;
  step : Z;
  answers : gmap string pystr;
  finished : bool;
  last_question : pystr
}.

Definition new_state : State :=
  {| active := true; step := 0; answers := ∅; finished := false;
     last_question := [] |}.

Definition _questions : list Question :=
  [ {| key := "target";
       q := py "你要量什麼？（例：光譜/UVA-UVB-UVC/VIS、輝度/照度、UVC 輻照度/光強度、PPFD/PPF/PAR、積分球總光通量、反射率/穿透率、螢光粉…）" |};
    {| key := "object_band";
       q := py "量測對象與主要波段？（例：UVC LED、醫療燈、顯示器、玻璃/鏡面；波段 UVC/UVB/UVA/VIS/NIR；或 275nm/365nm；不確定也可）" |};
    {| key := "scene_constraints";
       q := py "使用情境與限制？（研發/產線/品管/客製；是否要速度/自動化/報表；預算或尺寸限制；沒有就回「沒有」）" |} ].

(** [l[i]] for a Python int: negative indices count from the end, and [None]
    is the [IndexError]. *)
Definition index {A} (l : list A) (i : Z) : option A :=
  if (0 <=? i)%Z then nth_error l (Z.to_nat i)
  else if (- Z.of_nat (length l) <=? i)%Z
       then nth_error l (Z.to_nat (Z.of_nat (length l) + i))
       else None.

(** [str(n)]. *)
Definition str_of_int (n : Z) : pystr :=
  py (DecimalString.NilZero.string_of_int (Z.to_int n)).

Section Dialogue.
Context `{Unicode}.

Definition _norm (text : pystr) : pystr := strip text.
Definition _lower (text : pystr) : pystr := lower (_norm text).

(** [any(k in t for k in keys)]. *)
Definition any_in (keys : list pystr) (t : pystr) : bool :=
  existsb (fun k => contains k t) keys.

Definition is_one_of (t : pystr) (l : list pystr) : bool :=
  existsb (fun x => bool_decide (t = x)) l.

Definition _is_control (text : pystr) : Control :=
  let t := _lower text in
  if negb (nonempty t) then NoControl
  else if any_in [py "重來"; py "重新"; py "reset"; py "restart"] t then Reset
  else if any_in [py "取消"; py "停止"; py "cancel"; py "stop"; py "結束"] t then Cancel
  else NoControl.

Definition unknown_tokens : list pystr :=
  [py "不知道"; py "不確定"; py "都可以"; py "隨便"; py "沒想法"; py "不清楚";
   py "略過"; py "跳過"; py "skip"; py "na"; py "n/a"].

Definition _is_unknown (text : pystr) (question_key : string) : bool :=
  let t := _lower text in
  if negb (nonempty t) then true
  else if bool_decide (question_key = "scene_constraints")
          && is_one_of t [py "沒有"; py "無"; py "沒"; py "no"; py "none"]
  then false
  else if is_one_of t [py "-"; py "none"] then true
  else any_in unknown_tokens t.

Definition KEYCAP : pystr := [65039; 8419]%N.

(** [advance]: the new state and the reply; [None] is the [IndexError] of
    [qs[step]] for a step below -3. *)
Definition advance (state : State) (user_text : pystr) : option (State * pystr) :=
  let qs := _questions in
  let q0 := match qs with x :: _ => q x | [] => [] end in
  match _is_control user_text with
  | Reset =>
      Some ({| active := true; step := 0; answers := ∅; finished := false;
               last_question := q0 |},
            py "好的，我們重來一次。

Q1" ++ KEYCAP ++ py " " ++ q0)
  | Cancel =>
      Some ({| active := false; step := step state; answers := answers state;
               finished := false; last_question := [] |},
            py "已取消選型流程。你可以直接問我產品規格/比較或公司資訊。")
  | NoControl =>
      if (step state <=? 0)%Z && negb (nonempty (last_question state)) then
        Some ({| active := active state; step := 0; answers := answers state;
                 finished := finished state; last_question := q0 |},
              py "我用 3 個問題幫你快速選型。

Q1" ++ KEYCAP ++ py " " ++ q0)
      else
        let step0 := step state in
        let answers' :=
          if (0 <=? step0)%Z && (step0 <? Z.of_nat (length qs))%Z then
            match nth_error qs (Z.to_nat step0) with
            | Some qu =>
                let ans := _norm user_text in
                <[ key qu := if _is_unknown ans (key qu) then [] else ans ]>
                  (answers state)
            | None => answers state
            end
          else answers state in
        let step1 := (step0 + 1)%Z in
        if (Z.of_nat (length qs) <=? step1)%Z then
          Some ({| active := false; step := step1; answers := answers';
                   finished := true; last_question := [] |},
                py "收到。我整理需求後，直接給你 2~3 個候選型號、差異與建議。")
        else
          match index qs step1 with
          | Some qu =>
              Some ({| active := active state; step := step1; answers := answers';
                       finished := finished state; last_question := q qu |},
                    py "Q" ++ str_of_int (step1 + 1) ++ KEYCAP ++ py " " ++ q qu)
          | None => None
          end
  end.

(** [_extract_models] ([MODEL_RE] is the pattern of [MODEL_REGEX]). *)
Definition _extract_models (text : pystr) : list pystr :=
  let t := _norm text in
  if nonempty t then add_all ∅ (MODEL_REGEX_findall t) else [].

Definition _has_model_token (text : pystr) : bool := nonempty (_extract_models text).

(** [_has_any]. *)
Definition _has_any (text : pystr) (keys : list pystr) : bool :=
  let t := _lower text in
  existsb (fun k => contains (lower k) t) (List.filter nonempty keys).

(** A character of the text against a lowercase letter of a pattern compiled
    with [re.IGNORECASE]: the letter, its capital, and for [s] the long s. *)
Definition ci (letter c : N) : bool :=
  (c =? letter)%N || (c =? letter - 32)%N || ((letter =? 115)%N && (c =? 383)%N).

(** The text starts with the letters of [word], matched with [ci]: what
    follows them. *)
Fixpoint ci_prefix (word s : pystr) : option pystr :=
  match word, s with
  | [], _ => Some s
  | l :: word', c :: s' => if ci l c then ci_prefix word' s' else None
  | _ :: _, [] => None
  end.

Definition DOT : N := 46.

(** One attempt of [VS_RE], the pattern \b(vs\.?|versus)\b, at a position. *)
Definition vs_here (before : option N) (s : pystr) : bool :=
  word_boundary before (head s)
  && (match s with
      | v :: c :: rest =>
          ci 118 v && ci 115 c
          && match rest with
             | d :: rest' =>
                 ((d =? DOT)%N && word_boundary (Some d) (head rest'))
                 || word_boundary (Some c) (Some d)
             | [] => word_boundary (Some c) None
             end
      | _ => false
      end
      || match ci_prefix (py "versus") s with
         | Some rest => word_boundary (nth_error s 5) (head rest)
         | None => false
         end).

(** [VS_RE.search(t)], as a truth value. *)
Fixpoint vs_scan (before : option N) (s : pystr) : bool :=
  vs_here before s
  || match s with
     | c :: r => vs_scan (Some c) r
     | [] => false
     end.

Definition VS_RE_search (s : pystr) : bool := vs_scan None s.

Definition _looks_like_model_compare (text : pystr) : bool :=
  let t := _norm text in
  if negb (nonempty t) then false
  else
    let models := _extract_models t in
    if (2 <=? length models)%nat then true
    else if VS_RE_search t && (1 <=? length models)%nat then true
    else if _has_any t [py "比較"; py "差異"; py "哪個好"; py "哪個較好"; py "差別"]
            && (1 <=? length models)%nat then true
    else false.

Definition model_triggers : list pystr :=
  [py "選型"; py "推薦"; py "幫我選"; py "適合哪個"; py "挑哪台"; py "要哪一台"].

Definition triggers : list pystr :=
  [py "選型"; py "推薦"; py "怎麼選"; py "我要買"; py "適合哪個"; py "挑哪台";
   py "規劃"; py "需求"; py "要選"; py "要買"; py "建議型號"; py "要哪一台";
   py "幫我選"; py "給我型號"; py "配一台"].

Definition should_enter_decision (user_text : pystr) : bool :=
  let t := _norm user_text in
  if negb (nonempty t) then false
  else if _looks_like_model_compare t then false
  else if _has_model_token t then _has_any t model_triggers
  else _has_any t triggers.

(** The state after the successive inputs of a user, [advance] being called
    once per input. *)
Fixpoint run (state : State) (inputs : list pystr) : option State :=
  match inputs with
  | [] => Some state
  | text :: rest =>
      match advance state text with
      | Some (state', _) => run state' rest
      | None => None
      end
  end.

(** What the chat handler does with the stored dialogue state on one message
    (when the request is neither debounced nor answered from the cache): it
    replies with a question of the dialogue and stores the new state, or goes
    on to answer, with the state left in the session and the finished state
    from which the query terms are taken (if any). *)
Inductive Turn :=
  | Asked (stored : State) (reply : pystr)
  | Answered (stored : option State) (terms_from : option State).

Definition decision_turn (stored : option State) (user_text : pystr) : option Turn :=
  let decision_state :=
    match stored with
    | None => if should_enter_decision user_text then Some new_state else None
    | Some st => Some st
    end in
  match decision_state with
  | Some st =>
      if active st then
        match advance st user_text with
        | Some (st', reply) => Some (Asked st' reply)
        | None => None
        end
      else if finished st then Some (Answered None (Some st))
      else Some (Answered stored None)
  | None => Some (Answered stored None)
  end.

(** The states that the handler stores: the step is one of the three
    questions or 3; an active dialogue is unfinished and has a question left;
    a finished one has been through the three questions; and every question
    before the step has an answer (which may be empty). *)
Definition dialogue_ok (st : State) : Prop :=
  (0 <= step st <= 3)%Z /\
  (active st = true -> (step st <= 2)%Z /\ finished st = false) /\
  (finished st = true -> step st = 3%Z) /\
  (forall i qu, (i < Z.to_nat (step st))%nat -> nth_error _questions i = Some qu ->
     is_Some (answers st !! key qu)).

End Dialogue.
End Decision.

(** ** Further functions of [app.py] *)

Section Helpers.
Context `{Unicode} `{Config}.

(** ASCII lowercasing of one character. *)
Definition to_lower (c : N) : N := if ascii_upper c then (c + 32)%N else c.

(** [extract_model_key]. *)
Definition extract_model_key (user_text : pystr) : pystr :=
  let q := strip user_text in
  if nonempty q then
    match MODEL_REGEX_search q with
    | Some m => strip m
    | None => []
    end
  else [].

Definition SLASH : N := 47.
Definition BACKSLASH : N := 92.
Definition SPACE : N := 32.

(** [s.replace(a, b)] for single characters. *)
Definition replace_char (a b : N) (s : pystr) : pystr :=
  List.map (fun c => if (c =? a)%N then b else c) s.

(** [s.split(sep)[-1]]: what follows the last [sep]; [cur] is the piece read
    so far. *)
Fixpoint after_last (sep : N) (cur s : pystr) : pystr :=
  match s with
  | [] => cur
  | c :: r => if (c =? sep)%N then after_last sep [] r
              else after_last sep (cur ++ [c]) r
  end.

(** [_extract_product_stem_from_source]. *)
Definition _extract_product_stem_from_source (src : pystr) : pystr :=
  let s := strip src in
  if negb (nonempty s) then []
  else
    let base := after_last SLASH [] (replace_char BACKSLASH SLASH s) in
    if startswith PRODUCT_PREFIX base && endswith MD_SUFFIX (lower base)
    then strip (slice_from 8 (slice_to (-3) base))
    else [].

(** [_is_known_model], on the [known_models] of the index. *)
Definition _is_known_model (known_models : list pystr) (x : pystr) : bool :=
  if negb (nonempty x) then false
  else
    let nx := normalize_key x in
    if negb (nonempty nx) then false
    else existsb (fun m => bool_decide (normalize_key m = nx)) known_models.

(** [KEYWORD_EXPANSION], in the order of the source. *)
Definition KEYWORD_EXPANSION : list (pystr * list pystr) :=
  [ (py "ppfd", py <$> ["PPFD"; "PPF"; "植物燈"; "光子通量"; "光合光子"; "PAR"; "植物照明"]%string);
    (py "ppf", py <$> ["PPFD"; "PPF"; "植物燈"; "光子通量"; "PAR"; "植物照明"]%string);
    (py "par", py <$> ["PPFD"; "PPF"; "PAR"; "植物燈"; "植物照明"; "光子通量"]%string);
    (py "uvc", py <$> ["UVC"; "消毒"; "輻照度"; "辐照度"; "radiometer"; "uvc led";
                       "紫外線消毒"; "254nm"]%string);
    (py "輝度", py <$> ["輝度"; "luminance"; "亮度"; "nit"; "cd/m2"; "cd/m²"]%string);
    (py "照度", py <$> ["照度"; "lux"; "illuminance"]%string);
    (py "光譜", py <$> ["光譜"; "spectrum"; "波長"; "spectrometer"; "光譜儀"]%string);
    (py "穿透", py <$> ["穿透率"; "透過率"; "transmittance"; "玻璃穿透"]%string);
    (py "反射", py <$> ["反射率"; "reflectance"; "鏡面反射"]%string) ].

(** The arguments of the successive calls of [add] in
    [build_search_queries]. *)
Definition search_query_candidates (user_text : pystr) (alias_terms extra_terms : list pystr)
    (model_key : pystr) : list pystr :=
  let base := strip user_text in
  let low := lower base in
  let expansions :=
    concat (List.map (fun kv => if contains (fst kv) low || contains (fst kv) base
                                then snd kv else [])
              KEYWORD_EXPANSION) in
  let key_tokens :=
    (if nonempty model_key then [model_key] else [])
      ++ List.filter nonempty extra_terms
      ++ List.filter nonempty (slice_to 4 alias_terms) in
  [base] ++ (if nonempty model_key then [model_key] else [])
    ++ alias_terms ++ extra_terms ++ expansions
    ++ (if nonempty key_tokens then [join [SPACE] key_tokens] else []).

(** [build_search_queries]. *)
Definition build_search_queries (user_text : pystr) (alias_terms extra_terms : list pystr)
    (model_key : pystr) : list pystr :=
  slice_to 10 (add_all ∅ (search_query_candidates user_text alias_terms extra_terms model_key)).

(** ** The BM25 tokenizer and index *)

Definition is_latin (c : N) : bool := is_letter c || ascii_digit c.

(** [[一-鿿]]. *)
Definition is_cjk (c : N) : bool := in_range 19968 40959 c.

Definition flush (cur : pystr) : list pystr := if nonempty cur then [cur] else [].

(** The maximal runs of characters of a class, in order: [findall] of the
    pattern [[class]+]; [cur] is the run being read. *)
Fixpoint runs_from (p : N -> bool) (cur s : pystr) : list pystr :=
  match s with
  | [] => flush cur
  | c :: r => if p c then runs_from p (cur ++ [c]) r
              else flush cur ++ runs_from p [] r
  end.

Definition RE_LATIN_WORD_findall (s : pystr) : list pystr := runs_from is_latin [] s.

(** [[一-鿿]{2,}]: the maximal runs of two characters or more. *)
Definition RE_CJK_SEQ_findall (s : pystr) : list pystr :=
  List.filter (fun w => (2 <=? length w)%nat) (runs_from is_cjk [] s).

(** [[seg[i:i+2] for i in range(len(seg) - 1)]]. *)
Fixpoint bigrams (seg : pystr) : list pystr :=
  match seg with
  | a :: ((b :: _) as r) => [a; b] :: bigrams r
  | _ => []
  end.

(** The tokens of one CJK run. *)
Definition cjk_tokens (seg : pystr) : list pystr :=
  let seg := strip seg in
  if (length seg <? 2)%nat then [] else seg :: bigrams seg.

Definition bm25_tokenize (text : pystr) (max_tokens : Z) : list pystr :=
  if negb (nonempty text) then []
  else
    let t := replace_char UNDERSCORE SPACE (replace_char HYPHEN SPACE (lower text)) in
    let tokens :=
      List.filter (fun w => (2 <=? length w)%nat) (RE_LATIN_WORD_findall t)
        ++ concat (List.map cjk_tokens (RE_CJK_SEQ_findall text)) in
    if (max_tokens <? Z.of_nat (length tokens))%Z then slice_to max_tokens tokens
    else tokens.

(** [Counter(toks)], as its items in the order of first occurrence. *)
Fixpoint counter_add (t : pystr) (c : list (pystr * nat)) : list (pystr * nat) :=
  match c with
  | [] => [(t, 1%nat)]
  | (x, n) :: r => if bool_decide (x = t) then (x, S n) :: r
                   else (x, n) :: counter_add t r
  end.

Definition Counter (toks : list pystr) : list (pystr * nat) :=
  fold_left (fun c t => counter_add t c) toks [].

(** [tf.get(term, 0)]. *)
Fixpoint counter_get (c : list (pystr * nat)) (term : pystr) : nat :=
  match c with
  | [] => 0%nat
  | (x, n) :: r => if bool_decide (x = term) then n else counter_get r term
  end.

(** The fields of [BM25CorpusIndex] that [build] sets ([avgdl] is a quotient
    of two integers, kept exact). *)
Record BM25Index := {
  _ready : bool;
  doc_ids : list pystr;
  doc_sources : list pystr;
  doc_text_snippets : list pystr;
  tf : list (list (pystr * nat));
  df : gmap pystr nat;
  dl : list nat;
  avgdl : Q
}.

Definition empty_index : BM25Index :=
  {| _ready := false; doc_ids := []; doc_sources := []; doc_text_snippets := [];
     tf := []; df := ∅; dl := []; avgdl := 0 |}.

(** [df[term] += 1 for term in tf.keys()]. *)
Definition df_bump (df : gmap pystr nat) (terms : list pystr) : gmap pystr nat :=
  fold_left (fun d term => <[ term := S (default 0%nat (d !! term)) ]> d) terms df.

(** One iteration of the loop of [build] over the documents. *)
Definition index_doc (max_chars : Z) (ix : BM25Index) (doc : pystr * pystr * pystr)
  : BM25Index :=
  let '(doc_id, src, text) := doc in
  let raw := strip text in
  let raw := if nonempty raw then slice_to max_chars raw else [] in
  let toks := bm25_tokenize raw 220 in
  let c := Counter toks in
  let d := list_sum (List.map snd c) in
  {| _ready := false;
     doc_ids := doc_ids ix ++ [doc_id];
     doc_sources := doc_sources ix ++ [src];
     doc_text_snippets := doc_text_snippets ix ++ [raw];
     tf := tf ix ++ [c];
     df := if (0 <? d)%nat then df_bump (df ix) (List.map fst c) else df ix;
     dl := dl ix ++ [d];
     avgdl := 0 |}.

(** [BM25CorpusIndex.build]. *)
Definition bm25_build (docs : list (pystr * pystr * pystr)) (max_chars : Z) : BM25Index :=
  if negb (nonempty docs) then empty_index
  else
    let ix := fold_left (index_doc max_chars) docs empty_index in
    let nonzero := List.filter (fun d => (0 <? d)%nat) (dl ix) in
    {| _ready := true;
       doc_ids := doc_ids ix; doc_sources := doc_sources ix;
       doc_text_snippets := doc_text_snippets ix;
       tf := tf ix; df := df ix; dl := dl ix;
       avgdl := if nonempty nonzero
                then (Z.of_nat (list_sum nonzero)
                        # Pos.of_nat (Nat.max 1 (length nonzero)))%Q
                else 0 |}.

(** The invariant of the loop of [build]: one entry per document in every
    list, no document longer than the 220 tokens of the tokenizer, and the
    document frequency of a term the number of term counts that have it. *)
Definition index_ok (ix : BM25Index) : Prop :=
  length (doc_ids ix) = length (tf ix) /\
  length (doc_sources ix) = length (tf ix) /\
  length (doc_text_snippets ix) = length (tf ix) /\
  length (dl ix) = length (tf ix) /\
  Forall (fun d => (d <= 220)%nat) (dl ix) /\
  forall term, default 0%nat (df ix !! term)
               = length (List.filter (fun c => (0 <? counter_get c term)%nat) (tf ix)).

End Helpers.

(** ** Cleaning of catalog fields *)

Section Cleaning.
Context `{Unicode}.

(** The set [bad] of [clean_placeholder]. *)
Definition bad_placeholders : list pystr :=
  py <$> ["(資料中未提供)"; "資料中未提供"; "未提供"; "N/A"; "NA"; "null"; "None"]%string.

(** [clean_placeholder]. *)
Definition clean_placeholder (text : pystr) : pystr :=
  let t := strip text in
  if negb (nonempty t) then []
  else if existsb (fun x => bool_decide (t = x)) bad_placeholders then []
  else if (length t <=? 24)%nat && (contains (py "未提供") t || contains (py "資料中") t)
       then []
  else t.

End Cleaning.

(** ** The retrieved snippets: order, cap per source and duplicates *)

(** A retrieved document: its [distance] ([None] when the key is missing or
    holds [None]), the [source], [file] and [id] of its [metadata] (the empty
    string when missing), and its [text]. *)
Record RagDoc := {
  rag_distance : option Q;
  rag_source : pystr;
  rag_file : pystr;
  rag_id : pystr;
  rag_text : pystr
}.

(** [float(x.get("distance") or 9999.0)]: a missing distance and the distance
    zero both give 9999. *)
Definition sort_key (d : RagDoc) : Q :=
  match rag_distance d with
  | Some x => if Qeq_bool x 0 then 9999 else x
  | None => 9999
  end.

(** [sorted(docs, key=...)]: ascending, and stable. *)
Fixpoint insert_asc (x : RagDoc) (l : list RagDoc) : list RagDoc :=
  match l with
  | [] => [x]
  | y :: r => if Qle_bool (sort_key x) (sort_key y) then x :: l
              else y :: insert_asc x r
  end.

Definition sorted_by_distance (docs : list RagDoc) : list RagDoc :=
  foldr insert_asc [] docs.

Section Rag.
Context `{Unicode}.

(** [Config.RAG_DEDUPE_TEXT]. *)
Variable RAG_DEDUPE_TEXT : bool.

(** [src or "_"], [src] being the first of [source], [file] and [id] that is
    not empty, stripped. *)
Definition src_key (d : RagDoc) : pystr :=
  let src := strip (list_or (rag_source d) (list_or (rag_file d) (rag_id d))) in
  list_or src (py "_").

(** [re.sub(r"\s+", " ", txt)]: every run of white space becomes one space;
    [in_run] tells that the character before was white space. *)
Fixpoint collapse_spaces (in_run : bool) (s : pystr) : pystr :=
  match s with
  | [] => []
  | c :: r =>
      if is_space c then
        if in_run then collapse_spaces true r else SPACE :: collapse_spaces true r
      else c :: collapse_spaces false r
  end.

(** The key under which a text counts as seen. *)
Definition text_key (txt : pystr) : pystr :=
  lower (slice_to 260 (collapse_spaces false txt)).

(** The loop of [rag_dedupe_and_cap] over the sorted documents. *)
Fixpoint rag_loop (per_source_max : Z) (per_source_count : gmap pystr nat)
    (seen_text : gset pystr) (docs : list RagDoc) : list RagDoc :=
  match docs with
  | [] => []
  | d :: r =>
      if (per_source_max <=? Z.of_nat (default 0%nat (per_source_count !! src_key d)))%Z
      then rag_loop per_source_max per_source_count seen_text r
      else
        let txt := strip (rag_text d) in
        if negb (nonempty txt) then rag_loop per_source_max per_source_count seen_text r
        else if RAG_DEDUPE_TEXT && bool_decide (text_key txt ∈ seen_text)
        then rag_loop per_source_max per_source_count seen_text r
        else
          d :: rag_loop per_source_max
                 (<[ src_key d := S (default 0%nat (per_source_count !! src_key d)) ]>
                    per_source_count)
                 (if RAG_DEDUPE_TEXT then {[ text_key txt ]} ∪ seen_text else seen_text)
                 r
  end.

(** [rag_dedupe_and_cap]. *)
Definition rag_dedupe_and_cap (docs : list RagDoc) (per_source_max : Z) : list RagDoc :=
  if negb (nonempty docs) then []
  else rag_loop per_source_max ∅ ∅ (sorted_by_distance docs).

End Rag.

(** ** Instances used by the examples *)

Module Excerpt.

Definition in_table (t : list (N * N)) (c : N) : bool :=
  existsb (fun r => in_range (fst r) (snd r) c) t.

Definition spaces : list (N * N) :=
  [(133, 133); (160, 160); (8192, 8202); (8232, 8233); (8239, 8239);
   (8287, 8287); (12288, 12288)]%N.

Definition decimals : list (N * N) := [(65296, 65305)]%N.

Definition alnums : list (N * N) :=
  [(170, 170); (178, 179); (181, 181); (185, 186); (188, 190); (192, 214);
   (216, 246); (248, 255); (304, 304); (8490, 8490); (12293, 12295);
   (12321, 12329); (12337, 12341); (12344, 12348); (12353, 12438);
   (12445, 12447); (12449, 12538); (12540, 12543); (12549, 12591);
   (12593, 12686); (12690, 12693); (12704, 12735); (12784, 12799);
   (12832, 12841); (12872, 12879); (12881, 12895); (12928, 12937);
   (12977, 12991); (13312, 19903); (19968, 40959); (65296, 65305);
   (65313, 65338); (65345, 65370); (65382, 65470); (65474, 65479);
   (65482, 65487); (65490, 65495); (65498, 65500)]%N.

Definition lower1 (c : N) : pystr :=
  if (in_range 192 222 c && negb (c =? 215))%N then [c + 32]%N
  else if in_range 65313 65338 c then [c + 32]%N
  else if (c =? 304)%N then [105; 775]%N
  else if (c =? 8490)%N then [107]%N
  else [c].

End Excerpt.

(** The part of Unicode 14 (the tables of CPython 3.11) over Latin-1,
    U+0130, U+212A, General Punctuation, U+3000..U+9FFF (CJK) and the
    full-width forms; other code points are taken as caseless symbols. *)
#[export] Instance unicode_excerpt : Unicode.
Proof.
  refine {| uni_space := Excerpt.in_table Excerpt.spaces;
            uni_decimal := Excerpt.in_table Excerpt.decimals;
            uni_alnum := Excerpt.in_table Excerpt.alnums;
            uni_lower := fun _ c _ => Excerpt.lower1 c |}.
  intros c. unfold Excerpt.in_table, Excerpt.decimals, Excerpt.spaces, in_range.
  simpl. rewrite !orb_false_r, andb_true_iff, !N.leb_le. intros [Hlo Hhi].
  repeat match goal with
         | |- context [(?a <=? ?b)%N] => destruct (N.leb_spec a b); try lia
         end; reflexivity.
Defined.

(** The defaults of [Config] (no environment variable set). *)
#[export] Instance default_config : Config := {|
  STRICT_DECISION_ALLOWLIST := true;
  ALLOWLIST_MAX_ITEMS := 24;
  FUSION_ENABLED := true;
  FUSION_RRF_K := 60;
  FUSION_VEC_TOPN := 10;
  FUSION_BM25_TOPN := 10;
  FUSION_FORCE_NONEMPTY := true;
  FUSION_LOWCONF_ALLOW_ALL := true;
  FUSION_LOWCONF_MIN_ALLOW := 12
|}.

(** Candidate lists for the examples: eight lexical candidates, and ten
    vector candidates of which the ninth and the tenth are the first two
    lexical ones. *)
Definition bm_example : list pystr :=
  py <$> ["M-101"; "M-102"; "M-103"; "M-104"; "M-105"; "M-106"; "M-107";
          "M-108"]%string.

Definition vec_example : list pystr :=
  py <$> ["V-201"; "V-202"; "V-203"; "V-204"; "V-205"; "V-206"; "V-207"; "V-208";
          "M-101"; "M-102"]%string.

(** A prompt builder for the examples: a heading and the blocks, one per
    line. *)
Definition example_builder (blocks : list pystr) : pystr :=
  py "【資料內容】" ++ join [NEWLINE] blocks.

(** * Properties *)

(** ** Character classes, strings and the pattern *)

Ltac classes :=
  unfold is_space, is_d, is_tail, is_w, is_letter, az09, is_ascii, ascii_upper,
    ascii_lower, ascii_digit, ascii_space, in_range, HYPHEN, UNDERSCORE in *.

Ltac cmp_cases :=
  repeat match goal with
         | |- context [(?a <=? ?b)%N] => destruct (N.leb_spec a b)
         | |- context [(?a <? ?b)%N] => destruct (N.ltb_spec a b)
         | |- context [(?a =? ?b)%N] => destruct (N.eqb_spec a b)
         | H : context [(?a <=? ?b)%N] |- _ => destruct (N.leb_spec a b)
         | H : context [(?a <? ?b)%N] |- _ => destruct (N.ltb_spec a b)
         | H : context [(?a =? ?b)%N] |- _ => destruct (N.eqb_spec a b)
         end;
  simpl in *; try first [discriminate | lia | congruence].

Section StrFacts.
Context `{Unicode}.

Lemma letter_not_space c : is_letter c = true -> is_space c = false.
Proof. classes. cmp_cases. Qed.

Lemma letter_not_digit c : is_letter c = true -> is_d c = false.
Proof. classes. cmp_cases. Qed.

Lemma digit_not_space c : is_d c = true -> is_space c = false.
Proof.
  classes. destruct (c <? 128)%N eqn:E.
  - cmp_cases.
  - apply uni_decimal_not_space.
Qed.

Lemma tail_not_space c : is_tail c = true -> is_space c = false.
Proof. classes. cmp_cases. Qed.

Lemma lstrip_id s : Forall (fun c => is_space c = false) s -> lstrip s = s.
Proof. destruct 1 as [|c r Hc _]; simpl; [done|]. by rewrite Hc. Qed.

Lemma strip_id s : Forall (fun c => is_space c = false) s -> strip s = s.
Proof.
  intros Hs. unfold strip, rstrip. rewrite (lstrip_id s Hs).
  rewrite lstrip_id; [apply rev_involutive|]. by apply List.Forall_rev.
Qed.

Lemma try_down_Some {A} (f : nat -> option A) lo hi x :
  try_down f lo hi = Some x -> exists j, (lo <= j <= hi)%nat /\ f j = Some x.
Proof.
  induction hi as [|h IH]; simpl.
  - destruct (Nat.ltb_spec 0 lo); [discriminate|].
    destruct (f 0%nat) eqn:F; [|discriminate].
    intros [= <-]. exists 0%nat. split; [lia|done].
  - destruct (Nat.ltb_spec (S h) lo); [discriminate|].
    destruct (f (S h)) eqn:F.
    + intros [= <-]. exists (S h). split; [lia|done].
    + intros Hr. destruct (IH Hr) as (j & Hj & Hf). exists j. split; [lia|done].
Qed.

Lemma run_firstn p s j :
  (j <= run p s)%nat ->
  Forall (fun c => p c = true) (firstn j s) /\ length (firstn j s) = j.
Proof.
  revert j. induction s as [|c r IH]; intros j; simpl.
  - intros Hj. assert (j = 0%nat) as -> by lia. by split.
  - destruct j as [|j]; [by split|].
    destruct (p c) eqn:Hp; [|lia]. intros Hj.
    destruct (IH j ltac:(lia)) as [Hall Hlen]. simpl. split; [by constructor|lia].
Qed.

Lemma firstn_plus {A} (a b : nat) (l : list A) :
  firstn (a + b) l = firstn a l ++ firstn b (skipn a l).
Proof.
  revert l. induction a as [|a IH]; intros l; [done|].
  destruct l as [|x l]; simpl; [by rewrite firstn_nil|]. by rewrite IH.
Qed.

Lemma m_tail_shape before rest t :
  m_tail before rest = Some t ->
  Forall (fun c => is_tail c = true) (firstn t rest).
Proof.
  unfold m_tail. intros Ht. apply try_down_Some in Ht as (j & Hj & Hf).
  destruct (word_boundary _ _); [|discriminate]. injection Hf as <-.
  apply run_firstn. lia.
Qed.

Lemma m_digits_shape rest n :
  m_digits rest = Some n ->
  exists D T, firstn n rest = D ++ T /\ (2 <= length D)%nat /\
    Forall (fun c => is_d c = true) D /\ Forall (fun c => is_tail c = true) T.
Proof.
  unfold m_digits. intros Hn. apply try_down_Some in Hn as (j & Hj & Hf).
  destruct (m_tail _ _) as [t|] eqn:Ht; [|discriminate]. injection Hf as <-.
  destruct (run_firstn is_d rest j ltac:(lia)) as [Hall Hlen].
  exists (firstn j rest), (firstn t (skipn j rest)).
  split; [apply firstn_plus|]. split; [lia|]. split; [done|].
  by eapply m_tail_shape.
Qed.

Lemma m_hyphen_shape rest n :
  m_hyphen rest = Some n ->
  exists Hy D T, firstn n rest = Hy ++ D ++ T /\ (Hy = [] \/ Hy = [HYPHEN]) /\
    (2 <= length D)%nat /\
    Forall (fun c => is_d c = true) D /\ Forall (fun c => is_tail c = true) T.
Proof.
  assert (Hplain : forall n, m_digits rest = Some n ->
    exists Hy D T, firstn n rest = Hy ++ D ++ T /\ (Hy = [] \/ Hy = [HYPHEN]) /\
      (2 <= length D)%nat /\
      Forall (fun c => is_d c = true) D /\ Forall (fun c => is_tail c = true) T).
  { intros k Hk. apply m_digits_shape in Hk as (D & T & ? & ? & ? & ?).
    exists [], D, T. naive_solver. }
  unfold m_hyphen. destruct rest as [|c r]; [apply Hplain|].
  destruct (N.eqb_spec c HYPHEN) as [->|]; [|apply Hplain].
  destruct (m_digits r) as [k|] eqn:Hk; [|apply Hplain].
  intros [= <-]. apply m_digits_shape in Hk as (D & T & HDT & ? & ? & ?).
  exists [HYPHEN], D, T. simpl. rewrite HDT. naive_solver.
Qed.

Lemma m_letters_shape s e : m_letters s = Some e -> model_shape (firstn e s).
Proof.
  unfold m_letters. intros He. apply try_down_Some in He as (j & Hj & Hf).
  destruct (m_hyphen _) as [n|] eqn:Hn; [|discriminate]. injection Hf as <-.
  destruct (run_firstn is_letter s j ltac:(lia)) as [Hall Hlen].
  apply m_hyphen_shape in Hn as (Hy & D & T & HDT & ? & ? & ? & ?).
  exists (firstn j s), Hy, D, T. rewrite firstn_plus, HDT.
  split; [done|]. split; [|done].
  intros Hnil. rewrite Hnil in Hlen. simpl in Hlen. lia.
Qed.

Lemma match_here_shape before s m :
  match_here before s = Some m -> model_shape m /\ exists e, m = firstn e s.
Proof.
  unfold match_here. destruct (word_boundary _ _); [|discriminate].
  destruct (m_letters s) as [e|] eqn:He; [|discriminate]. intros [= <-].
  split; [by apply m_letters_shape|by exists e].
Qed.

(** Every match has the shape of the pattern and is a piece of the text. *)
Lemma scan_shape s : forall before skip m,
  m ∈ scan before skip s -> model_shape m /\ exists a b, s = a ++ m ++ b.
Proof.
  induction s as [|c r IH]; intros before skip m; simpl.
  - by intros ?%elem_of_nil.
  - assert (Hrest : forall b' k, m ∈ scan b' k r ->
              model_shape m /\ exists a b, c :: r = a ++ m ++ b).
    { intros b' k Hm. destruct (IH _ _ _ Hm) as (Hs & a & b & ->).
      split; [done|]. by exists (c :: a), b. }
    destruct skip as [|k]; [|apply Hrest].
    destruct (match_here before (c :: r)) as [m'|] eqn:Hm'; [|apply Hrest].
    intros [->|Hin]%elem_of_cons; [|by eapply Hrest].
    apply match_here_shape in Hm' as (Hs & e & ->). split; [done|].
    exists [], (skipn e (c :: r)). simpl. by rewrite firstn_skipn.
Qed.

Lemma shape_strip m : model_shape m -> strip m = m.
Proof.
  intros (L & Hy & D & T & -> & _ & HL & HHy & _ & HD & HT).
  apply strip_id. rewrite !Forall_app. repeat split.
  - eapply Forall_impl; [exact HL|]. apply letter_not_space.
  - destruct HHy as [->| ->]; [constructor|]. by repeat constructor.
  - eapply Forall_impl; [exact HD|]. apply digit_not_space.
  - eapply Forall_impl; [exact HT|]. apply tail_not_space.
Qed.

Lemma count_d_app a b : count_d (a ++ b) = (count_d a + count_d b)%nat.
Proof. unfold count_d. by rewrite List.filter_app, length_app. Qed.

Lemma count_d_all D : Forall (fun c => is_d c = true) D -> count_d D = length D.
Proof.
  unfold count_d. induction 1 as [|c r Hc _ IH]; simpl; [done|].
  rewrite Hc. simpl. by rewrite IH.
Qed.

Lemma count_d_letters L : Forall (fun c => is_letter c = true) L -> count_d L = 0%nat.
Proof.
  unfold count_d. induction 1 as [|c r Hc _ IH]; simpl; [done|].
  by rewrite (letter_not_digit c Hc).
Qed.

Lemma shape_two_digits m : model_shape m -> (2 <= count_d m)%nat.
Proof.
  intros (L & Hy & D & T & -> & _ & _ & _ & HlenD & HD & _).
  rewrite !count_d_app, (count_d_all D HD). lia.
Qed.

Lemma elem_of_add_all seen l m :
  m ∈ add_all seen l -> exists x, x ∈ l /\ m = strip x /\ m <> [].
Proof.
  revert seen. induction l as [|x r IH]; intros seen; simpl.
  - by intros ?%elem_of_nil.
  - assert (Hrest : forall sn, m ∈ add_all sn r ->
              exists y, y ∈ x :: r /\ m = strip y /\ m <> []).
    { intros sn Hm. destruct (IH _ Hm) as (y & ? & ? & ?).
      exists y. split; [by right|done]. }
    destruct (nonempty (strip x)) eqn:Hne; [|apply Hrest].
    case_bool_decide; [apply Hrest|].
    intros [->|Hin]%elem_of_cons; [|by eapply Hrest].
    exists x. split; [by left|]. split; [done|].
    intros Hnil. by rewrite Hnil in Hne.
Qed.

(** Every extracted mention has the shape of the pattern, and is one of the
    matches of the pattern in the text. *)
Lemma mention_shape text m :
  m ∈ extract_model_mentions text ->
  model_shape m /\ m ∈ MODEL_REGEX_findall text.
Proof.
  unfold extract_model_mentions. destruct (nonempty text); [|by intros ?%elem_of_nil].
  intros (x & Hx & -> & _)%elem_of_add_all.
  destruct (scan_shape _ _ _ _ Hx) as [Hs _].
  by rewrite (shape_strip x Hs).
Qed.

Lemma letters_digit_no_shape L d :
  Forall (fun c => is_letter c = true) L -> ~ model_shape (L ++ [d]).
Proof.
  intros HL Hs%shape_two_digits. rewrite count_d_app, (count_d_letters L HL) in Hs.
  unfold count_d in Hs. simpl in Hs. destruct (is_d d); simpl in Hs; lia.
Qed.

Lemma letters_digit_no_match L d :
  Forall (fun c => is_letter c = true) L -> MODEL_REGEX_findall (L ++ [d]) = [].
Proof.
  intros HL. destruct (MODEL_REGEX_findall (L ++ [d])) as [|m r] eqn:E; [done|].
  exfalso. assert (Hm : m ∈ MODEL_REGEX_findall (L ++ [d])) by (rewrite E; by left).
  destruct (scan_shape _ _ _ _ Hm) as (Hs%shape_two_digits & a & b & Hab).
  assert (Hc : count_d (L ++ [d]) = (count_d a + count_d m + count_d b)%nat).
  { rewrite Hab, !count_d_app. lia. }
  rewrite count_d_app, (count_d_letters L HL) in Hc.
  unfold count_d at 1 in Hc. simpl in Hc. destruct (is_d d); simpl in Hc; lia.
Qed.

End StrFacts.

(** ** Allowlist enforcement *)

Section EnforceFacts.
Context `{Unicode} `{Config}.

Lemma startswith_spec p s : startswith p s = true <-> exists b, s = p ++ b.
Proof.
  revert s. induction p as [|a p IH]; intros s; simpl.
  - split; [by exists s|done].
  - destruct s as [|c s].
    + split; [done|]. by intros [b Hb].
    + rewrite andb_true_iff, N.eqb_eq, IH. split.
      * intros [-> [b ->]]. by exists b.
      * intros [b [= -> ->]]. split; [done|by exists b].
Qed.

Lemma contains_spec k t : contains k t = true <-> exists a b, t = a ++ k ++ b.
Proof.
  induction t as [|c t IH]; simpl.
  - rewrite orb_false_r, startswith_spec. split.
    + intros [b Hb]. by exists [], b.
    + intros (a & b & Hab). symmetry in Hab.
      apply app_eq_nil in Hab as [-> [-> ->]%app_eq_nil]. by exists [].
  - rewrite orb_true_iff, startswith_spec, IH. split.
    + intros [[b ->]|(a & b & ->)]; [by exists [], b|by exists (c :: a), b].
    + intros ([|c' a] & b & Hab); simpl in Hab.
      * left. by exists b.
      * right. injection Hab as -> ->. by exists a, b.
Qed.

Lemma join_elem sep l x : x ∈ l -> exists a b, join sep l = a ++ x ++ b.
Proof.
  induction l as [|y r IH]; [by intros ?%elem_of_nil|].
  intros [->|Hin]%elem_of_cons.
  - destruct r as [|z r]; simpl.
    + exists [], []. by rewrite app_nil_r.
    + by exists [], (sep ++ join sep (z :: r)).
  - destruct (IH Hin) as (a & b & Hab). destruct r as [|z r].
    + by apply elem_of_nil in Hin.
    + exists (y ++ sep ++ a), b. change (join sep (y :: z :: r))
        with (y ++ sep ++ join sep (z :: r)). rewrite Hab. by rewrite <- !app_assoc.
Qed.

(** The blocked reply shows every entry of the allowlist as it is. *)
Lemma blocked_message_lists allowlist x :
  x ∈ allowlist -> contains x (blocked_message allowlist) = true.
Proof.
  intros (a & b & Hab)%(join_elem LIST_SEP). apply contains_spec.
  exists (blocked_head ++ a), (b ++ blocked_foot).
  unfold blocked_message. rewrite Hab. by rewrite <- !app_assoc.
Qed.

Lemma elem_of_allow_norm allowlist k :
  k ∈ allow_norm allowlist <->
  exists x : pystr, x ∈ allowlist /\ x <> [] /\ normalize_key x = k.
Proof.
  unfold allow_norm. rewrite elem_of_list_to_set, list_elem_of_In, in_map_iff.
  split.
  - intros (x & <- & [Hx Hne]%filter_In). exists x.
    split; [by apply list_elem_of_In|]. split; [|done]. by destruct x.
  - intros (x & Hx%list_elem_of_In & Hne & <-). exists x. split; [done|].
    apply filter_In. split; [done|]. by destruct x.
Qed.

Lemma allow_norm_empty allowlist :
  allow_norm allowlist = ∅ <-> forallb (fun x => negb (nonempty x)) allowlist = true.
Proof.
  rewrite forallb_forall. split.
  - intros He x Hx. destruct x as [|c x]; [done|]. exfalso.
    assert (Hk : normalize_key (c :: x) ∈ allow_norm allowlist).
    { apply elem_of_allow_norm. exists (c :: x). by rewrite list_elem_of_In. }
    rewrite He in Hk. by apply not_elem_of_empty in Hk.
  - intros Hall. apply set_eq. intros k. split; [|by intros ?%not_elem_of_empty].
    intros (x & Hx%list_elem_of_In & Hne & _)%elem_of_allow_norm.
    specialize (Hall x Hx). by destruct x.
Qed.

Lemma elem_of_bad_mentions answer allowlist m :
  m ∈ bad_mentions answer allowlist <->
  m ∈ extract_model_mentions answer /\ normalize_key m ∉ allow_norm allowlist.
Proof.
  unfold bad_mentions. rewrite list_elem_of_In, filter_In, <- list_elem_of_In.
  rewrite negb_true_iff, bool_decide_eq_false. done.
Qed.

(** The three outcomes of the enforcement, by cases. *)
Lemma enforce_cases answer allowlist :
  enforce_allowlist_or_block answer allowlist =
    if negb STRICT_DECISION_ALLOWLIST then (answer, false, [])
    else if forallb (fun x => negb (nonempty x)) allowlist
         then (no_candidates_message, true, [])
         else if nonempty (bad_mentions answer allowlist)
              then (blocked_message allowlist, true, bad_mentions answer allowlist)
              else (answer, false, []).
Proof.
  unfold enforce_allowlist_or_block. destruct (negb _); [done|].
  destruct (forallb _ allowlist) eqn:E.
  - apply allow_norm_empty in E. by rewrite bool_decide_eq_true_2.
  - rewrite bool_decide_eq_false_2; [done|]. intros E'%allow_norm_empty. congruence.
Qed.

Lemma some_entry_nonempty allowlist :
  (exists x : pystr, x ∈ allowlist /\ x <> []) ->
  forallb (fun x => negb (nonempty x)) allowlist = false.
Proof.
  intros (x & Hx%list_elem_of_In & Hne).
  destruct (forallb _ allowlist) eqn:E; [|done].
  rewrite forallb_forall in E. specialize (E x Hx). by destruct x.
Qed.

(** C1 (as amended): with strict enforcement on and an allowlist that has a
    non-empty entry, an answer with a model mention whose normalized key is
    not a normalized allowlist entry is replaced by the blocked reply, which
    depends on the allowlist alone and shows each of its entries; the answer
    is reported blocked, and the report holds exactly the mentions that are
    not allowed.  The function is total: it raises in no case. *)
Theorem enforce_blocks_unlisted_mention (answer : pystr) (allowlist : list pystr) :
  STRICT_DECISION_ALLOWLIST = true ->
  (exists x : pystr, x ∈ allowlist /\ x <> []) ->
  (exists m : pystr, m ∈ extract_model_mentions answer /\
             normalize_key m ∉ allow_norm allowlist) ->
  enforce_allowlist_or_block answer allowlist
    = (blocked_message allowlist, true, bad_mentions answer allowlist)
  /\ (forall x, x ∈ allowlist -> contains x (blocked_message allowlist) = true)
  /\ (forall m, m ∈ bad_mentions answer allowlist <->
        m ∈ extract_model_mentions answer /\
        normalize_key m ∉ allow_norm allowlist).
Proof.
  intros Hstrict Hne (m & Hm & Hbad). split; [|split].
  - rewrite enforce_cases, Hstrict, (some_entry_nonempty _ Hne). simpl.
    assert (Hin : m ∈ bad_mentions answer allowlist) by by apply elem_of_bad_mentions.
    destruct (bad_mentions answer allowlist); [by apply elem_of_nil in Hin|done].
  - apply blocked_message_lists.
  - apply elem_of_bad_mentions.
Qed.

Lemma no_match_no_bad text allowlist :
  MODEL_REGEX_findall text = [] -> bad_mentions text allowlist = [].
Proof.
  intros Hnone. unfold bad_mentions, extract_model_mentions. rewrite Hnone.
  by destruct (nonempty text).
Qed.

(** C2 (as amended): a text in which the pattern matches nothing is returned
    unchanged and unblocked, except when strict enforcement is on and the
    allowlist has no non-empty entry: then the reply for no candidates
    replaces it and it is reported blocked. *)
Theorem enforce_text_without_tokens (text : pystr) (allowlist : list pystr) :
  MODEL_REGEX_findall text = [] ->
  enforce_allowlist_or_block text allowlist =
    if STRICT_DECISION_ALLOWLIST && forallb (fun x => negb (nonempty x)) allowlist
    then (no_candidates_message, true, [])
    else (text, false, []).
Proof.
  intros Hnone. rewrite enforce_cases, (no_match_no_bad _ _ Hnone). simpl.
  destruct STRICT_DECISION_ALLOWLIST; simpl; [|done].
  by destruct (forallb _ allowlist).
Qed.

(** C10: every mention the detector extracts, and so every mention the
    enforcement reports, is a letter run, an optional hyphen and at least two
    digits, then the tail; letters followed by one more character (a single
    digit, say) are no such token, are never extracted from any text, and a
    text made of them alone passes unchanged whenever the allowlist has a
    non-empty entry. *)
Theorem single_digit_token_never_blocks :
  (forall text m, m ∈ extract_model_mentions text -> model_shape m) /\
  (forall answer allowlist m,
     m ∈ (enforce_allowlist_or_block answer allowlist).2 -> model_shape m) /\
  (forall L d, Forall (fun c => is_letter c = true) L ->
     ~ model_shape (L ++ [d]) /\
     (forall text, L ++ [d] ∉ extract_model_mentions text) /\
     (forall allowlist, (exists x : pystr, x ∈ allowlist /\ x <> []) ->
        enforce_allowlist_or_block (L ++ [d]) allowlist = (L ++ [d], false, []))).
Proof.
  split; [|split].
  - intros text m Hm. by apply mention_shape in Hm as [? _].
  - intros answer allowlist m. rewrite enforce_cases.
    destruct (negb _); [by intros ?%elem_of_nil|].
    destruct (forallb _ allowlist); [by intros ?%elem_of_nil|].
    destruct (nonempty _); [|by intros ?%elem_of_nil]. simpl.
    intros [Hm _]%elem_of_bad_mentions. by apply mention_shape in Hm as [? _].
  - intros L d HL. split; [by apply letters_digit_no_shape|]. split.
    + intros text [Hs _]%mention_shape. by apply (letters_digit_no_shape L d).
    + intros allowlist Hne.
      rewrite enforce_cases, (some_entry_nonempty _ Hne).
      rewrite (no_match_no_bad _ _ (letters_digit_no_match L d HL)).
      by destruct (negb _).
Qed.

End EnforceFacts.

(** *** The enforcement on concrete answers (default configuration) *)

Ltac by_computation := apply (bool_decide_unpack _); vm_compute; exact I.

(** C1, as stated, fails on an empty allowlist: the answer mentions a model,
    and the report of violating mentions is empty. *)
Lemma enforce_empty_allowlist_reports_nothing :
  extract_model_mentions (py "建議使用 SRI-9999XYZ。") = [py "SRI-9999XYZ"] /\
  enforce_allowlist_or_block (py "建議使用 SRI-9999XYZ。") []
    = (no_candidates_message, true, []).
Proof. split; vm_compute; reflexivity. Qed.

Lemma enforce_blocks_unlisted_mention_witness :
  enforce_allowlist_or_block (py "SRI-4000UVC 或 SRI-9999XYZ") [py "SRI-4000UVC"]
    = (blocked_message [py "SRI-4000UVC"], true,
       bad_mentions (py "SRI-4000UVC 或 SRI-9999XYZ") [py "SRI-4000UVC"])
  /\ bad_mentions (py "SRI-4000UVC 或 SRI-9999XYZ") [py "SRI-4000UVC"]
     = [py "SRI-9999XYZ"].
Proof.
  split; [|vm_compute; reflexivity].
  apply (enforce_blocks_unlisted_mention
           (py "SRI-4000UVC 或 SRI-9999XYZ") [py "SRI-4000UVC"]).
  - reflexivity.
  - exists (py "SRI-4000UVC"). split; [by left|]. vm_compute. discriminate.
  - exists (py "SRI-9999XYZ"). split; by_computation.
Defined.

(** C2, as stated, fails on an empty allowlist: a text without any model-like
    token is replaced and reported blocked. *)
Lemma enforce_empty_allowlist_blocks_clean_text :
  MODEL_REGEX_findall (py "請問保固期多久？") = [] /\
  enforce_allowlist_or_block (py "請問保固期多久？") []
    = (no_candidates_message, true, []).
Proof. split; vm_compute; reflexivity. Qed.

Lemma enforce_text_without_tokens_witness :
  enforce_allowlist_or_block (py "請問保固期多久？") [py "SRI-4000UVC"]
    = (py "請問保固期多久？", false, []).
Proof.
  rewrite (enforce_text_without_tokens (py "請問保固期多久？") [py "SRI-4000UVC"]).
  - reflexivity.
  - vm_compute. reflexivity.
Defined.

Lemma single_digit_token_never_blocks_witness :
  (py "X5" ∉ extract_model_mentions (py "X5 與 SRI-4000UVC")) /\
  enforce_allowlist_or_block (py "X5") [py "SRI-4000UVC"] = (py "X5", false, []).
Proof.
  destruct single_digit_token_never_blocks as (_ & _ & Hx).
  destruct (Hx (py "X") 53%N) as (_ & Hnever & Hpass).
  - repeat constructor.
  - split; [apply (Hnever (py "X5 與 SRI-4000UVC"))|].
    apply (Hpass [py "SRI-4000UVC"]).
    exists (py "SRI-4000UVC"). split; [by left|]. vm_compute. discriminate.
Defined.

(** ** Reciprocal-rank fusion and the fused allowlist *)

Section FusionFacts.
Context `{Unicode} `{Config}.

Lemma elem_of_slice_to {A} (n : Z) (l : list A) x : x ∈ slice_to n l -> x ∈ l.
Proof.
  unfold slice_to. destruct (0 <=? n)%Z; apply subseteq_take.
Qed.

Lemma length_slice_to {A} (n : Z) (l : list A) :
  (0 <= n)%Z -> (Z.of_nat (length (slice_to n l)) <= n)%Z.
Proof.
  intros Hn. unfold slice_to. destruct (Z.leb_spec 0 n); [|lia].
  rewrite length_firstn. lia.
Qed.



Lemma elem_of_bump item v (score : scores) x :
  x ∈ (bump item v score).*1 <-> x = item \/ x ∈ score.*1.
Proof.
  induction score as [|[y q] r IH]; simpl.
  - rewrite list_elem_of_singleton. split; [by left|]. by intros [?|?%elem_of_nil].
  - case_bool_decide as Hy; simpl; rewrite !elem_of_cons.
    + subst y. tauto.
    + rewrite IH. tauto.
Qed.



Lemma score_list_total k lst : forall rank (score : scores),
  (0 < k + rank)%Z -> is_Some (score_list k rank lst score).
Proof.
  induction lst as [|item r IH]; intros rank score Hpos; simpl; [done|].
  destruct (nonempty item).
  - destruct (Z.eqb_spec (k + rank) 0); [lia|]. apply IH. lia.
  - apply IH. lia.
Qed.

Lemma score_lists_total k ranked_lists : forall score : scores,
  (0 <= k)%Z -> is_Some (score_lists k ranked_lists score).
Proof.
  induction ranked_lists as [|lst r IH]; intros score Hk; simpl; [done|].
  destruct (score_list_total k lst 1 score ltac:(lia)) as [s1 ->]. by apply IH.
Qed.





Lemma rrf_fuse_total ranked_lists k topn :
  (0 <= k)%Z -> is_Some (rrf_fuse ranked_lists k topn).
Proof.
  intros Hk. unfold rrf_fuse.
  destruct (score_lists_total k ranked_lists [] Hk) as [score ->].
  by destruct (nonempty score).
Qed.


End FusionFacts.

Section FusedFacts.
Context `{Unicode} `{Config}.

Lemma fused_of_total bm vec : is_Some (fused_of bm vec).
Proof. apply rrf_fuse_total. lia. Qed.

Lemma k_allow_of_spec (r : Q) :
  (Qle (1 # 4) r -> k_allow_of r = 8%Z) /\
  (Qlt 0 r -> Qlt r (1 # 4) -> k_allow_of r = 12%Z) /\
  (Qeq r 0 -> k_allow_of r = Z.max FUSION_LOWCONF_MIN_ALLOW 12).
Proof.
  unfold k_allow_of. split; [|split].
  - intros Hr. apply Qle_bool_iff in Hr. by rewrite Hr.
  - intros Hpos Hlt.
    destruct (Qle_bool (1 # 4) r) eqn:E1.
    { apply Qle_bool_iff in E1. by apply Qlt_not_le in Hlt. }
    destruct (Qle_bool r 0) eqn:E2; [|done].
    apply Qle_bool_iff in E2. by apply Qlt_not_le in Hpos.
  - intros Hz.
    destruct (Qle_bool (1 # 4) r) eqn:E1.
    { apply Qle_bool_iff in E1. rewrite Hz in E1. by compute in E1. }
    destruct (Qle_bool r 0) eqn:E2; [done|].
    assert (Hle : Qle r 0) by (rewrite Hz; apply Qle_refl).
    apply Qle_bool_iff in Hle. congruence.
Qed.

(** C3 (as amended): the overlap is the number of lowercased keys common to
    the two candidate lists as a whole, the ratio is the overlap over
    [max 1 (min |bm| |vec| 8)], and the ratio picks the number of fused items
    allowed: 8 from 0.25 up, 12 strictly between 0 and 0.25, and
    [max FUSION_LOWCONF_MIN_ALLOW 12] at 0.  The result is marked
    low-confidence exactly when the allowed prefix of the fused list is empty
    and [FUSION_FORCE_NONEMPTY] is set; otherwise the allowlist is that
    prefix. *)
Theorem fused_allowlist_tiers (known : list pystr) (rag : Z -> list pystr)
    (bm25_models : list pystr) :
  FUSION_ENABLED = true ->
  exists fused allow meta,
    fused_of (bm_candidates_of bm25_models) (vec_candidates_of rag) = Some fused /\
    build_fused_allowlist known rag bm25_models = Some (allow, MetaEnabled meta) /\
    overlap meta
      = size ((list_to_set (List.map lower (bm_candidates_of bm25_models)) : gset pystr)
                ∩ list_to_set (List.map lower (vec_candidates_of rag))) /\
    overlap_ratio meta
      = (Z.of_nat (overlap meta)
           # Pos.of_nat (Nat.max 1 (Nat.min (Nat.min (length (bm_candidates_of bm25_models))
                                                   (length (vec_candidates_of rag))) 8)))%Q /\
    (Qle (1 # 4) (overlap_ratio meta) -> k_allow meta = 8%Z) /\
    (Qlt 0 (overlap_ratio meta) -> Qlt (overlap_ratio meta) (1 # 4) ->
       k_allow meta = 12%Z) /\
    (Qeq (overlap_ratio meta) 0 ->
       k_allow meta = Z.max FUSION_LOWCONF_MIN_ALLOW 12) /\
    low_confidence meta
      = negb (nonempty (slice_to (Z.min ALLOWLIST_MAX_ITEMS (k_allow meta)) fused))
        && FUSION_FORCE_NONEMPTY /\
    (low_confidence meta = false ->
       allow = slice_to (Z.min ALLOWLIST_MAX_ITEMS (k_allow meta)) fused).
Proof.
  intros Hen.
  destruct (fused_of_total (bm_candidates_of bm25_models) (vec_candidates_of rag))
    as [fused Hf].
  unfold build_fused_allowlist. rewrite Hen, Hf. simpl.
  eexists fused, _, _. split; [done|]. split; [reflexivity|]. simpl.
  split; [done|]. split; [done|].
  destruct (k_allow_of_spec
              (overlap_ratio_of (bm_candidates_of bm25_models) (vec_candidates_of rag)))
    as (H8 & H12 & H0').
  split; [done|]. split; [done|]. split; [done|]. split; [done|].
  by intros ->.
Qed.


Lemma add_all_NoDup (l : list pystr) : forall seen : gset pystr,
  NoDup (lower <$> add_all seen l) /\
  forall x, x ∈ add_all seen l -> lower x ∉ seen.
Proof.
  induction l as [|x r IH]; intros seen; simpl.
  - split; [constructor|]. by intros ? ?%elem_of_nil.
  - destruct (nonempty (strip x)); [|apply IH].
    case_bool_decide as Hseen; [apply IH|].
    destruct (IH ({[lower (strip x)]} ∪ seen)) as [Hnd Hout]. split.
    + simpl. apply NoDup_cons. split; [|done].
      intros (y & Hy & Hin)%list_elem_of_fmap. apply (Hout y Hin).
      rewrite <- Hy. apply elem_of_union. left. by apply elem_of_singleton.
    + intros y [->|Hin]%elem_of_cons; [done|].
      intros Hs. apply (Hout y Hin). apply elem_of_union. by right.
Qed.

Lemma NoDup_lower_slice_to (n : Z) (l : list pystr) :
  NoDup (lower <$> l) -> NoDup (lower <$> slice_to n l).
Proof.
  intros Hnd. unfold slice_to.
  destruct (0 <=? n)%Z; rewrite fmap_take;
    (eapply sublist_NoDup; [exact Hnd|apply sublist_take]).
Qed.

Lemma NoDup_lower_filter (p : pystr -> bool) (l : list pystr) :
  NoDup (lower <$> l) -> NoDup (lower <$> List.filter p l).
Proof.
  induction l as [|x r IH]; simpl; [done|].
  intros [Hx Hr]%NoDup_cons. destruct (p x); simpl; [|by apply IH].
  apply NoDup_cons. split; [|by apply IH].
  intros (y & Hy & Hin)%list_elem_of_fmap. apply Hx.
  apply list_elem_of_fmap. exists y. split; [done|].
  apply list_elem_of_In. apply list_elem_of_In in Hin. by apply filter_In in Hin as [? _].
Qed.

(** C5 (as amended): the allowlists are deduplicated on the lowercased,
    stripped key, not on the normalized key: the allowlist built from the
    selected sources, and the merged allowlist whenever the fallback to the
    known models was not taken, have no two entries that are equal up to
    letter case.  The enforcement compares normalized keys: a mention is never
    reported when its normalized key is that of a non-empty allowlist
    entry. *)
Theorem allowlist_distinct_up_to_case :
  (forall base_allow fused_allow known,
     (merge_allowlists base_allow fused_allow known).2 = false ->
     NoDup (lower <$> (merge_allowlists base_allow fused_allow known).1)) /\
  (forall relevant_docs used_md_files,
     NoDup (lower <$> build_allowlist_from_sources relevant_docs used_md_files)) /\
  (forall answer allowlist (m x : pystr),
     x ∈ allowlist -> x <> [] -> normalize_key m = normalize_key x ->
     m ∉ (enforce_allowlist_or_block answer allowlist).2).
Proof.
  split; [|split].
  - intros base_allow fused_allow known. unfold merge_allowlists. simpl.
    intros ->. apply NoDup_lower_slice_to, add_all_NoDup.
  - intros relevant_docs used_md_files. unfold build_allowlist_from_sources.
    apply NoDup_lower_slice_to, NoDup_lower_filter, add_all_NoDup.
  - intros answer allowlist m x Hx Hne Hkey. rewrite enforce_cases.
    destruct (negb _); [by intros ?%elem_of_nil|].
    destruct (forallb _ allowlist); [by intros ?%elem_of_nil|].
    destruct (nonempty _); [|by intros ?%elem_of_nil]. simpl.
    intros [_ Hbad]%elem_of_bad_mentions. apply Hbad.
    apply elem_of_allow_norm. by exists x.
Qed.

End FusedFacts.

(** *** Fusion on concrete candidate lists (default configuration) *)


(** C3, as stated, fails twice.  The first eight candidates of each list have
    nothing in common, yet the overlap counted is 2 (from positions 9 and 10
    of the vector list), the ratio 2/8 and eight items are allowed, with no
    low-confidence mark;
    and two lists with no common candidate at all (ratio 0) give twelve
    allowed items and no low-confidence mark either. *)
Lemma fused_overlap_counts_whole_lists :
  overlap_of (firstn 8 bm_example) (firstn 8 vec_example) = 0%nat /\
  (exists allow meta,
     build_fused_allowlist [] (fun _ => vec_example) bm_example
       = Some (allow, MetaEnabled meta) /\
     overlap meta = 2%nat /\ overlap_ratio meta = (2 # 8)%Q /\
     k_allow meta = 8%Z /\ low_confidence meta = false /\ length allow = 8%nat) /\
  (exists meta,
     build_fused_allowlist [] (fun _ => [py "CD-200"]) [py "AB-100"]
       = Some ([py "AB-100"; py "CD-200"], MetaEnabled meta) /\
     overlap_ratio meta = (0 # 1)%Q /\ k_allow meta = 12%Z /\
     low_confidence meta = false).
Proof.
  split; [vm_compute; reflexivity|]. split.
  - destruct (build_fused_allowlist [] (fun _ => vec_example) bm_example)
      as [[allow [|meta]]|] eqn:E; vm_compute in E; try discriminate.
    injection E as <- <-. do 2 eexists. split; [reflexivity|]. repeat split.
  - destruct (build_fused_allowlist [] (fun _ => [py "CD-200"]) [py "AB-100"])
      as [[allow [|meta]]|] eqn:E; vm_compute in E; try discriminate.
    injection E as <- <-. eexists. split; [reflexivity|]. repeat split.
Qed.

Lemma fused_allowlist_tiers_witness :
  exists allow meta,
    build_fused_allowlist [] (fun _ => vec_example) bm_example
      = Some (allow, MetaEnabled meta) /\
    (Qle (1 # 4) (overlap_ratio meta) -> k_allow meta = 8%Z).
Proof.
  destruct (fused_allowlist_tiers [] (fun _ => vec_example) bm_example)
    as (fused & allow & meta & _ & Hb & _ & _ & H8 & _); [reflexivity|].
  exists allow, meta. split; [exact Hb|exact H8].
Defined.


(** C5, as stated, fails: the merge keeps the spelling with the hyphen and
    the one without it side by side, though their normalized keys are
    equal. *)
Lemma merged_allowlist_keeps_two_spellings :
  merge_allowlists [py "SRI-4000UVC"] [py "SRI4000UVC"] []
    = ([py "SRI-4000UVC"; py "SRI4000UVC"], false) /\
  normalize_key (py "SRI-4000UVC") = normalize_key (py "SRI4000UVC").
Proof. split; vm_compute; reflexivity. Qed.

Lemma allowlist_distinct_up_to_case_witness :
  NoDup (lower <$> (merge_allowlists [py "SRI-4000UVC"] [py "sri-4000uvc"; py "LI-100"] []).1)
  /\ (py "sri4000uvc" ∉ (enforce_allowlist_or_block (py "sri4000uvc 可以") [py "SRI-4000UVC"]).2).
Proof.
  destruct allowlist_distinct_up_to_case as (Hmerge & _ & Henf). split.
  - apply Hmerge. vm_compute. reflexivity.
  - apply (Henf _ _ _ (py "SRI-4000UVC")); [left|vm_compute; discriminate|].
    vm_compute. reflexivity.
Defined.

(** ** Prompt trimming *)

Section TrimFacts.
Context `{Unicode}.
Variable build : list pystr -> pystr.
Variable max_chars : Z.

Lemma pop_last_length kind l l' :
  pop_last kind l = Some l' -> length l = S (length l').
Proof.
  revert l'. induction l as [|x r IH]; intros l'; simpl; [discriminate|].
  destruct (pop_last kind r) as [r'|].
  - intros [= <-]. simpl. by rewrite (IH r').
  - destruct (kind x); [|discriminate]. by intros [= <-].
Qed.

Lemma pop_last_filter kind (p : pystr -> bool) l l' :
  (forall b, kind b = true -> p b = false) ->
  pop_last kind l = Some l' -> List.filter p l' = List.filter p l.
Proof.
  intros Hp. revert l'. induction l as [|x r IH]; intros l'; simpl; [discriminate|].
  destruct (pop_last kind r) as [r'|].
  - intros [= <-]. simpl. by rewrite (IH r').
  - destruct (kind x) eqn:Hk; [|discriminate]. intros [= <-]. by rewrite (Hp x Hk).
Qed.

Lemma drop_kind_filter kind (p : pystr -> bool) fuel : forall l,
  (forall b, kind b = true -> p b = false) ->
  List.filter p (drop_kind build max_chars kind fuel l) = List.filter p l.
Proof.
  induction fuel as [|n IH]; intros l Hp; simpl; [done|].
  destruct (over build max_chars l); [|done].
  destruct (pop_last kind l) as [l'|] eqn:E; [|done].
  rewrite IH by done. by eapply pop_last_filter.
Qed.

(** The fuel given to [drop_kind] never runs out before the loop ends. *)
Lemma drop_kind_exit kind fuel : forall l,
  (length l <= fuel)%nat ->
  over build max_chars (drop_kind build max_chars kind fuel l) = false \/
  pop_last kind (drop_kind build max_chars kind fuel l) = None.
Proof.
  induction fuel as [|n IH]; intros l Hlen; simpl.
  - destruct l; [|simpl in Hlen; lia]. by right.
  - destruct (over build max_chars l) eqn:Ho; [|by left].
    destruct (pop_last kind l) as [l'|] eqn:E; [|by right].
    apply IH. apply pop_last_length in E. lia.
Qed.

Lemma length_removelast (l : list pystr) : length (removelast l) = pred (length l).
Proof.
  induction l as [|x r IH]; [done|]. destruct r as [|y r]; [done|].
  change (removelast (x :: y :: r)) with (x :: removelast (y :: r)).
  cbn [length]. rewrite IH. cbn [length]. done.
Qed.

(** The last loop stops at two blocks. *)
Lemma drop_trailing_floor fuel : forall l,
  (Nat.min 2 (length l) <= length (drop_trailing build max_chars fuel l))%nat.
Proof.
  induction fuel as [|n IH]; intros l; cbn [drop_trailing]; [lia|].
  destruct (over build max_chars l); cbn [andb]; [|lia].
  destruct (Nat.ltb_spec 2 (length l)); [|lia].
  specialize (IH (removelast l)). rewrite length_removelast in IH. lia.
Qed.

Lemma drop_trailing_exit fuel : forall l,
  (length l <= fuel)%nat ->
  over build max_chars (drop_trailing build max_chars fuel l) = false \/
  (length (drop_trailing build max_chars fuel l) <= 2)%nat.
Proof.
  induction fuel as [|n IH]; intros l Hlen; cbn [drop_trailing].
  - right. lia.
  - destruct (over build max_chars l) eqn:Ho; cbn [andb]; [|by left].
    destruct (Nat.ltb_spec 2 (length l)); [|by right].
    apply IH. rewrite length_removelast. lia.
Qed.

Lemma filter_le_length (p : pystr -> bool) l :
  (length (List.filter p l) <= length l)%nat.
Proof. induction l as [|x r IH]; simpl; [lia|]. destruct (p x); simpl; lia. Qed.

Lemma core_not_rag b : is_rag b = true -> is_core b = false.
Proof. unfold is_core. by intros ->. Qed.

Lemma core_not_db b : is_db b = true -> is_core b = false.
Proof. unfold is_core. intros ->. by rewrite andb_false_r. Qed.

(** C7 (as amended): the floor of two blocks holds for the last stage only.
    The stages that drop vector snippets and catalog summaries may drop all of
    them; what is never dropped below two is the blocks of other kinds
    (document excerpts): the result keeps at least [min 2] of their number.
    The prompt returned is the rendering of the blocks returned; when it
    exceeds the budget, at most two blocks are left; and a list that renders
    within the budget is returned as it is. *)
Theorem trim_floor_is_for_core_blocks (context_blocks : list pystr) :
  (Nat.min 2 (length (List.filter is_core context_blocks))
     <= length (prompt_guard_trim build max_chars context_blocks).1)%nat /\
  (prompt_guard_trim build max_chars context_blocks).2
    = build (prompt_guard_trim build max_chars context_blocks).1 /\
  (over build max_chars (prompt_guard_trim build max_chars context_blocks).1 = true ->
     (length (prompt_guard_trim build max_chars context_blocks).1 <= 2)%nat) /\
  (over build max_chars context_blocks = false ->
     prompt_guard_trim build max_chars context_blocks
       = (context_blocks, build context_blocks)).
Proof.
  unfold prompt_guard_trim.
  set (b1 := drop_kind build max_chars is_rag (length context_blocks) context_blocks).
  set (b2 := drop_kind build max_chars is_db (length b1) b1).
  set (b3 := List.map shorten_doc b2).
  set (b4 := drop_trailing build max_chars (length b3) b3).
  assert (H1 : List.filter is_core b1 = List.filter is_core context_blocks)
    by (apply drop_kind_filter, core_not_rag).
  assert (H2 : List.filter is_core b2 = List.filter is_core b1)
    by (apply drop_kind_filter, core_not_db).
  assert (L1 := filter_le_length is_core b1).
  assert (L2 := filter_le_length is_core b2).
  assert (L3 : length b3 = length b2) by apply length_map.
  assert (L4 := drop_trailing_floor (length b3) b3). fold b4 in L4.
  assert (E4 := drop_trailing_exit (length b3) b3 (Nat.le_refl _)). fold b4 in E4.
  rewrite H1 in L1. rewrite H2, H1 in L2.
  assert (L0 := filter_le_length is_core context_blocks).
  destruct (over build max_chars context_blocks) eqn:O0; cbn [negb fst snd].
  2:{ split; [lia|]. split; [reflexivity|]. split; [congruence|done]. }
  destruct (over build max_chars b1) eqn:O1; cbn [negb fst snd].
  2:{ split; [lia|]. split; [reflexivity|]. split; [congruence|discriminate]. }
  destruct (over build max_chars b2) eqn:O2; cbn [negb fst snd].
  2:{ split; [lia|]. split; [reflexivity|]. split; [congruence|discriminate]. }
  split; [lia|]. split; [reflexivity|]. split; [|discriminate].
  intros O4. destruct E4; [congruence|done].
Qed.

End TrimFacts.

(** C7, as stated, fails: two vector snippets are both dropped by the first
    stage, and the list returned is empty. *)
Lemma trim_drops_every_snippet :
  prompt_guard_trim example_builder 20
    [RAG_TAG ++ py "a.md】UVC LED 量測說明，輻照度與光譜";
     RAG_TAG ++ py "b.md】積分球總光通量量測說明與注意事項"]
  = ([], py "【資料內容】").
Proof. vm_compute. reflexivity. Qed.

Lemma trim_floor_is_for_core_blocks_witness :
  (Nat.min 2 (length (List.filter is_core
                  [DOC_TAG ++ py "a.md】UVC LED 量測說明";
                   RAG_TAG ++ py "b.md】積分球總光通量量測說明";
                   DOC_TAG ++ py "c.md】輝度計規格";
                   DOC_TAG ++ py "d.md】照度計規格"]))
   <= length (prompt_guard_trim example_builder 20
                  [DOC_TAG ++ py "a.md】UVC LED 量測說明";
                   RAG_TAG ++ py "b.md】積分球總光通量量測說明";
                   DOC_TAG ++ py "c.md】輝度計規格";
                   DOC_TAG ++ py "d.md】照度計規格"]).1)%nat.
Proof.
  destruct (trim_floor_is_for_core_blocks
              example_builder 20
              [DOC_TAG ++ py "a.md】UVC LED 量測說明";
               RAG_TAG ++ py "b.md】積分球總光通量量測說明";
               DOC_TAG ++ py "c.md】輝度計規格";
               DOC_TAG ++ py "d.md】照度計規格"]) as [Hfloor _].
  exact Hfloor.
Defined.

(** ** BM25 scoring *)

Section BM25Facts.
Local Open Scope R_scope.
Variables k1 b : R.
Variable N : nat.
Variable stored_avgdl : R.
Hypothesis k1_nonneg : 0 <= k1.
Hypothesis b_range : 0 <= b <= 1.

Lemma avgdl_pos : 0 < BM25.avgdl stored_avgdl.
Proof. unfold BM25.avgdl. destruct (Rlt_dec 0 stored_avgdl); lra. Qed.

Lemma idf_nonneg df : (df <= N)%nat -> 0 <= BM25.idf N df.
Proof.
  intros Hdf. unfold BM25.idf. apply le_INR in Hdf.
  assert (Hd : 0 <= INR df) by apply pos_INR.
  assert (Hq : 0 < (INR N - INR df + 0.5) / (INR df + 0.5)).
  { apply Rdiv_lt_0_compat; lra. }
  rewrite <- ln_1. left. apply ln_increasing; lra.
Qed.

Lemma query_boost_pos qf : 0 < BM25.query_boost qf.
Proof.
  unfold BM25.query_boost.
  assert (Hm : (-1 <= Z.min 4 (Z.of_nat qf - 1))%Z) by lia.
  apply IZR_le in Hm. lra.
Qed.

(** The length normalisation [k1 * (1 - b + b * dl / avgdl)] is not negative. *)
Lemma length_norm_nonneg dl :
  0 <= k1 * (1 - b + b * (INR dl / BM25.avgdl stored_avgdl)).
Proof.
  assert (Ha := avgdl_pos). assert (Hd : 0 <= INR dl) by apply pos_INR.
  assert (Hq : 0 <= INR dl / BM25.avgdl stored_avgdl).
  { apply Rmult_le_pos; [done|]. left. by apply Rinv_0_lt_compat. }
  apply Rmult_le_pos; [done|]. destruct b_range.
  assert (0 <= b * (INR dl / BM25.avgdl stored_avgdl)) by by apply Rmult_le_pos.
  lra.
Qed.


Lemma term_score_nonneg dl df f qf :
  (df <= N)%nat -> 0 <= BM25.term_score k1 b N stored_avgdl dl df f qf.
Proof.
  intros Hdf. unfold BM25.term_score.
  destruct (df <=? 0)%nat; [lra|]. destruct (Nat.leb_spec f 0); [lra|].
  assert (HK := length_norm_nonneg dl).
  assert (Hf : 1 <= INR f) by (apply (le_INR 1); lia).
  apply Rmult_le_pos; [|left; apply query_boost_pos].
  apply Rmult_le_pos; [by apply idf_nonneg|].
  apply Rmult_le_pos; [apply Rmult_le_pos; lra|].
  left. apply Rinv_0_lt_compat. lra.
Qed.



End BM25Facts.



(** ** The requirement dialogue *)

Section DecisionFacts.
Context `{Unicode}.

Lemma questions_length : length Decision._questions = 3%nat.
Proof. reflexivity. Qed.

Lemma questions_next (i : Z) :
  (1 <= i < 3)%Z -> is_Some (Decision.index Decision._questions i).
Proof.
  intros Hi. unfold Decision.index. destruct (Z.leb_spec 0 i); [|lia].
  assert (i = 1 \/ i = 2)%Z as [-> | ->] by lia; by eexists.
Qed.

(** C6 (as amended): [advance] has no command that ends the dialogue early.
    From a state with a step that is not negative it always returns; it sets
    [finished] only when the input is no control command and the step is the
    last question's or beyond (then [active] is cleared as well), and it does
    so in every such case; reset apart, an answer already stored is kept
    unless it is the current question's, which the input replaces; cancel
    clears [active] and [finished] and keeps every answer. *)
Theorem advance_finishes_on_last_answer_only (state : Decision.State) (user_text : pystr) :
  (0 <= Decision.step state)%Z ->
  exists state' reply,
    Decision.advance state user_text = Some (state', reply) /\
    (Decision.finished state' = true ->
       Decision.finished state = true \/
       (Decision._is_control user_text = Decision.NoControl /\
        (2 <= Decision.step state)%Z /\ Decision.active state' = false)) /\
    (Decision._is_control user_text = Decision.NoControl ->
       (2 <= Decision.step state)%Z ->
       Decision.finished state' = true /\ Decision.active state' = false) /\
    (Decision._is_control user_text <> Decision.Reset ->
       forall k v, Decision.answers state !! k = Some v ->
         Decision.answers state' !! k = Some v \/
         exists qu, nth_error Decision._questions (Z.to_nat (Decision.step state)) = Some qu
                    /\ Decision.key qu = k) /\
    (Decision._is_control user_text = Decision.Cancel ->
       Decision.active state' = false /\ Decision.finished state' = false /\
       Decision.answers state' = Decision.answers state).
Proof.
  intros Hstep. unfold Decision.advance.
  destruct (Decision._is_control user_text) eqn:C.
  - do 2 eexists. split; [reflexivity|]. cbn [Decision.finished Decision.active Decision.answers].
    split; [discriminate|]. split; [discriminate|]. split; [done|discriminate].
  - do 2 eexists. split; [reflexivity|]. cbn [Decision.finished Decision.active Decision.answers].
    split; [discriminate|]. split; [discriminate|]. split; [|done].
    intros _ k v Hk. by left.
  - destruct ((Decision.step state <=? 0)%Z
              && negb (nonempty (Decision.last_question state))) eqn:Hinit.
    + apply andb_true_iff in Hinit as [Hle%Z.leb_le _].
      do 2 eexists. split; [reflexivity|].
      cbn [Decision.finished Decision.active Decision.answers].
      split; [by left|]. split; [lia|]. split; [|discriminate].
      intros _ k v Hk. by left.
    + rewrite questions_length.
      set (answers' := if (0 <=? Decision.step state)%Z && (Decision.step state <? Z.of_nat 3)%Z
                       then _ else _).
      assert (Hkeep : forall k v, Decision.answers state !! k = Some v ->
                answers' !! k = Some v \/
                exists qu, nth_error Decision._questions
                             (Z.to_nat (Decision.step state)) = Some qu
                           /\ Decision.key qu = k).
      { intros k v Hk. subst answers'.
        destruct ((0 <=? Decision.step state)%Z && (Decision.step state <? Z.of_nat 3)%Z);
          [|by left].
        destruct (nth_error _ _) as [qu|] eqn:Hq; [|by left].
        destruct (decide (Decision.key qu = k)) as [Heq|Hne].
        - right. by exists qu.
        - left. by rewrite lookup_insert_ne. }
      destruct (Z.leb_spec (Z.of_nat 3) (Decision.step state + 1)) as [Hlast|Hmore].
      * do 2 eexists. split; [reflexivity|].
        cbn [Decision.finished Decision.active Decision.answers].
        split; [right; repeat split; lia|]. split; [done|]. split; [|discriminate].
        intros _. exact Hkeep.
      * destruct (questions_next (Decision.step state + 1) ltac:(lia)) as [qu ->].
        do 2 eexists. split; [reflexivity|].
        cbn [Decision.finished Decision.active Decision.answers].
        split; [by left|]. split; [lia|]. split; [|discriminate].
        intros _. exact Hkeep.
Qed.

End DecisionFacts.

(** C6, as stated, fails: [done] is no command.  After the first question it
    is stored as the answer to it and the second question is asked, the
    dialogue neither finished nor inactive; and an input that ends the
    conversation in words is the cancel command, which does not finish. *)
Lemma done_is_an_ordinary_answer :
  Decision._is_control (py "done") = Decision.NoControl /\
  (match Decision.advance Decision.new_state (py "幫我推薦") with
   | Some (asked, _) =>
       option_map (fun r => (Decision.active r.1, Decision.finished r.1,
                             Decision.step r.1,
                             Decision.answers r.1 !! "target"%string))
         (Decision.advance asked (py "done"))
   | None => None
   end = Some (true, false, 1%Z, Some (py "done"))) /\
  Decision._is_control (py "結束") = Decision.Cancel.
Proof. repeat split; vm_compute; reflexivity. Qed.

Lemma advance_finishes_on_last_answer_only_witness :
  exists state' reply,
    Decision.advance {| Decision.active := true; Decision.step := 2;
                        Decision.answers := {[ "target"%string := py "光譜" ]};
                        Decision.finished := false;
                        Decision.last_question := py "Q" |} (py "沒有")
      = Some (state', reply) /\
    Decision.finished state' = true /\ Decision.active state' = false /\
    Decision.answers state' !! "target"%string = Some (py "光譜").
Proof.
  destruct (advance_finishes_on_last_answer_only
              {| Decision.active := true; Decision.step := 2;
                 Decision.answers := {[ "target"%string := py "光譜" ]};
                 Decision.finished := false;
                 Decision.last_question := py "Q" |} (py "沒有"))
    as (state' & reply & Hadv & _ & Hfin & Hkeep & _).
  - cbn. lia.
  - exists state', reply. split; [exact Hadv|].
    destruct Hfin as [Hf Ha]; [vm_compute; reflexivity|cbn; lia|].
    split; [exact Hf|]. split; [exact Ha|].
    destruct (Hkeep ltac:(vm_compute; discriminate) "target"%string (py "光譜"))
      as [Hk|(qu & Hq & Hkey)].
    + vm_compute. reflexivity.
    + exact Hk.
    + exfalso. vm_compute in Hq. injection Hq as <-. vm_compute in Hkey. discriminate.
Defined.

(** * Further properties *)

(** ** Stripping, lowercasing and keys *)

Section MoreStrFacts.
Context `{Unicode}.

Lemma lstrip_app_nonspace a c b :
  is_space c = false -> lstrip (a ++ c :: b) = lstrip a ++ c :: b.
Proof.
  intros Hc. induction a as [|x a IH]; simpl; [by rewrite Hc|].
  destruct (is_space x); [exact IH|reflexivity].
Qed.

Lemma lstrip_clean s : left_clean (lstrip s).
Proof.
  induction s as [|c r IH]; simpl; [done|].
  destruct (is_space c) eqn:Hc; [exact IH|exact Hc].
Qed.

Lemma lstrip_of_clean s : left_clean s -> lstrip s = s.
Proof. destruct s as [|c r]; simpl; [done|]. by intros ->. Qed.

Lemma rstrip_keeps_clean s : left_clean s -> left_clean (rstrip s).
Proof.
  destruct s as [|c r]; [done|]. simpl. intros Hc. unfold rstrip. simpl rev.
  rewrite (lstrip_app_nonspace (rev r) c [] Hc), rev_app_distr. simpl. exact Hc.
Qed.

Lemma strip_left_clean s : left_clean (strip s).
Proof. apply rstrip_keeps_clean, lstrip_clean. Qed.

Lemma strip_right_clean s : left_clean (rev (strip s)).
Proof. unfold strip, rstrip. rewrite rev_involutive. apply lstrip_clean. Qed.

(** [strip] leaves a stripped text as it is. *)
Lemma strip_idempotent s : strip (strip s) = strip s.
Proof.
  set (t := strip s). unfold strip at 1, rstrip.
  rewrite (lstrip_of_clean t (strip_left_clean s)).
  rewrite (lstrip_of_clean (rev t) (strip_right_clean s)). apply rev_involutive.
Qed.

Lemma length_lstrip s : (length (lstrip s) <= length s)%nat.
Proof.
  induction s as [|c r IH]; simpl; [lia|]. destruct (is_space c); simpl; lia.
Qed.

Lemma length_rstrip s : (length (rstrip s) <= length s)%nat.
Proof.
  unfold rstrip. rewrite length_rev. etransitivity; [apply length_lstrip|].
  by rewrite length_rev.
Qed.

Lemma length_strip s : (length (strip s) <= length s)%nat.
Proof.
  unfold strip. etransitivity; [apply length_rstrip|apply length_lstrip].
Qed.

Lemma lower_from_ascii s : forall before,
  Forall (fun c => is_ascii c = true) s ->
  lower_from before s = List.map to_lower s.
Proof.
  induction s as [|c r IH]; intros before Hs; simpl; [done|].
  apply Forall_cons in Hs as [Hc Hr]. rewrite Hc. simpl. by rewrite IH.
Qed.

(** The lowercased text ends with the lowercasing of its end (how the
    beginning is lowercased may depend on what follows it). *)
Lemma lower_from_suffix a : forall before b,
  exists pre, lower_from before (a ++ b) = pre ++ lower_from (rev a ++ before) b.
Proof.
  induction a as [|c a IH]; intros before b; simpl; [by exists []|].
  destruct (IH (c :: before) b) as [pre Hpre]. rewrite Hpre.
  rewrite <- (app_assoc (rev a) [c] before). simpl.
  eexists. by rewrite app_assoc.
Qed.

Lemma space_not_key c : is_space c = true -> az09 (to_lower c) = false.
Proof. unfold to_lower. classes. cmp_cases. Qed.

Lemma key_filter_lstrip s :
  List.filter az09 (List.map to_lower (lstrip s)) = List.filter az09 (List.map to_lower s).
Proof.
  induction s as [|c r IH]; simpl; [done|].
  destruct (is_space c) eqn:Hc; [|done]. by rewrite (space_not_key c Hc).
Qed.

Lemma key_filter_strip s :
  List.filter az09 (List.map to_lower (strip s)) = List.filter az09 (List.map to_lower s).
Proof.
  unfold strip, rstrip. rewrite map_rev, filter_rev, key_filter_lstrip.
  rewrite map_rev, filter_rev, rev_involutive. apply key_filter_lstrip.
Qed.

Lemma Forall_lstrip (P : N -> Prop) s : Forall P s -> Forall P (lstrip s).
Proof.
  induction 1 as [|c r Hc Hr IH]; simpl; [done|].
  destruct (is_space c); [done|by constructor].
Qed.

Lemma Forall_strip (P : N -> Prop) s : Forall P s -> Forall P (strip s).
Proof.
  intros Hs. unfold strip, rstrip.
  by apply List.Forall_rev, Forall_lstrip, List.Forall_rev, Forall_lstrip.
Qed.

(** On ASCII text the key is the text lowercased with everything but
    [a-z0-9] left out. *)
Lemma normalize_key_ascii s :
  Forall (fun c => is_ascii c = true) s ->
  normalize_key s = List.filter az09 (List.map to_lower s).
Proof.
  intros Hs. unfold normalize_key, lower.
  rewrite lower_from_ascii by by apply Forall_strip.
  apply key_filter_strip.
Qed.

Lemma key_chars s : Forall (fun c => az09 c = true) (normalize_key s).
Proof.
  unfold normalize_key. apply Forall_forall. intros c Hc.
  apply list_elem_of_In, filter_In in Hc. tauto.
Qed.

Lemma az09_fixed k :
  Forall (fun c => az09 c = true) k ->
  List.filter az09 (List.map to_lower k) = k.
Proof.
  induction 1 as [|c r Hc Hr IH]; simpl; [done|].
  assert (to_lower c = c) as -> by (unfold to_lower; classes; cmp_cases).
  by rewrite Hc, IH.
Qed.

(** X1: [normalize_key] is idempotent: a key is its own key. *)
Theorem normalize_key_idempotent (s : pystr) :
  normalize_key (normalize_key s) = normalize_key s.
Proof.
  assert (Hk := key_chars s). rewrite normalize_key_ascii.
  - by apply az09_fixed.
  - eapply Forall_impl; [exact Hk|]. intros c. classes. cmp_cases.
Qed.

(** X2: on ASCII text the key does not depend on letter case nor on any
    character that is no letter or digit (a hyphen, a space, a slash). *)
Theorem normalize_key_ignores_case_and_punctuation (a b : pystr) (c : N) :
  Forall (fun x => is_ascii x = true) (a ++ b) ->
  is_ascii c = true -> is_letter c = false -> ascii_digit c = false ->
  normalize_key (a ++ c :: b) = normalize_key (a ++ b) /\
  normalize_key (List.map to_lower (a ++ b)) = normalize_key (a ++ b).
Proof.
  intros Hab Hc Hl Hd. split.
  - rewrite !normalize_key_ascii; [|done|].
    + rewrite !map_app, !List.filter_app. simpl.
      assert (az09 (to_lower c) = false) as ->
        by (unfold to_lower; classes; cmp_cases).
      reflexivity.
    + apply Forall_app in Hab as [Ha Hb]. apply Forall_app. split; [done|].
      by constructor.
  - rewrite !normalize_key_ascii; [|done|].
    + rewrite map_map. f_equal. apply map_ext. intros x.
      unfold to_lower. classes. cmp_cases.
    + apply Forall_forall. intros x Hx.
      apply list_elem_of_In, in_map_iff in Hx as (y & <- & Hy).
      rewrite Forall_forall in Hab. specialize (Hab y (proj2 (list_elem_of_In _ _) Hy)).
      unfold to_lower. classes. cmp_cases.
Qed.

End MoreStrFacts.

Lemma normalize_key_ignores_case_and_punctuation_witness :
  normalize_key (py "SRI" ++ HYPHEN :: py "4000UVC") = normalize_key (py "SRI" ++ py "4000UVC").
Proof.
  apply (normalize_key_ignores_case_and_punctuation (py "SRI") (py "4000UVC") HYPHEN).
  - repeat constructor.
  - reflexivity.
  - reflexivity.
  - reflexivity.
Defined.

(** ** Truncation, file names, mentions and search queries *)

Section MoreAppFacts.
Context `{Unicode} `{Config}.

(** X3: for a limit of at least one character, [truncate_text] returns at
    most that many characters, and returns the stripped text itself when it is
    short enough. *)
Theorem truncate_text_within_limit (s : pystr) (max_chars : Z) :
  (1 <= max_chars)%Z ->
  (Z.of_nat (length (truncate_text s max_chars)) <= max_chars)%Z /\
  ((Z.of_nat (length (strip s)) <= max_chars)%Z -> truncate_text s max_chars = strip s).
Proof.
  intros Hmax. unfold truncate_text.
  destruct (nonempty (strip s)) eqn:Hne; simpl.
  - destruct (Z.leb_spec (Z.of_nat (length (strip s))) max_chars) as [Hfit|Hlong].
    + split; [done|done].
    + split; [|lia]. rewrite length_app.
      assert (Hr := length_rstrip (slice_to (max_chars - 1) (strip s))).
      assert (Hs := length_slice_to (max_chars - 1) (strip s) ltac:(lia)).
      change (length ELLIPSIS) with 1%nat. lia.
  - split; [simpl; lia|]. intros _. by destruct (strip s).
Qed.

Lemma after_last_no_sep sep s : forall cur,
  sep ∉ s -> after_last sep cur s = cur ++ s.
Proof.
  induction s as [|c r IH]; intros cur Hs; simpl; [by rewrite app_nil_r|].
  destruct (N.eqb_spec c sep) as [->|Hne].
  - exfalso. apply Hs. by left.
  - rewrite IH; [by rewrite <- app_assoc|]. intros Hin. apply Hs. by right.
Qed.

Lemma after_last_app sep a seg : forall cur,
  sep ∉ seg -> after_last sep cur (a ++ sep :: seg) = seg.
Proof.
  induction a as [|c a IH]; intros cur Hs; simpl.
  - rewrite N.eqb_refl. by apply after_last_no_sep.
  - destruct (c =? sep)%N; by apply IH.
Qed.

Lemma replace_char_absent a b s : a ∉ s -> replace_char a b s = s.
Proof.
  unfold replace_char. induction s as [|c r IH]; intros Hs; simpl; [done|].
  destruct (N.eqb_spec c a) as [->|Hne].
  - exfalso. apply Hs. by left.
  - rewrite IH; [done|]. intros Hin. apply Hs. by right.
Qed.

Lemma replace_char_app a b s t :
  replace_char a b (s ++ t) = replace_char a b s ++ replace_char a b t.
Proof. unfold replace_char. apply map_app. Qed.

Lemma replace_char_cons a b c s :
  replace_char a b (c :: s) = (if (c =? a)%N then b else c) :: replace_char a b s.
Proof. reflexivity. Qed.

Lemma replace_char_gone a b s : a <> b -> a ∉ replace_char a b s.
Proof.
  intros Hab. unfold replace_char. intros Hin.
  apply list_elem_of_In, in_map_iff in Hin as (c & Hc & _).
  destruct (N.eqb_spec c a); congruence.
Qed.

Lemma rstrip_app_nonspace a c :
  is_space c = false -> rstrip (a ++ [c]) = a ++ [c].
Proof.
  intros Hc. unfold rstrip. rewrite rev_app_distr. simpl. rewrite Hc. simpl.
  by rewrite rev_involutive.
Qed.

Lemma lower_ends_with_md x : endswith MD_SUFFIX (lower (x ++ MD_SUFFIX)) = true.
Proof.
  unfold lower. destruct (lower_from_suffix x [] MD_SUFFIX) as [pre ->].
  rewrite lower_from_ascii by (repeat constructor).
  unfold endswith. rewrite rev_app_distr. apply startswith_spec. by eexists.
Qed.

Lemma slice_middle {A} (P stem M : list A) :
  M <> [] ->
  slice_from (Z.of_nat (length P)) (slice_to (- Z.of_nat (length M)) (P ++ stem ++ M))
    = stem.
Proof.
  intros HM. assert (0 < length M)%nat by (destruct M; [done|simpl; lia]).
  unfold slice_to, slice_from.
  destruct (Z.leb_spec 0 (- Z.of_nat (length M))); [lia|].
  destruct (Z.leb_spec 0 (Z.of_nat (length P))); [|lia].
  rewrite Nat2Z.id.
  replace (Z.to_nat (Z.of_nat (length (P ++ stem ++ M)) + - Z.of_nat (length M)))
    with (length (P ++ stem)) by (rewrite !length_app; lia).
  rewrite app_assoc, firstn_app, firstn_all, Nat.sub_diag. simpl firstn.
  rewrite app_nil_r, skipn_app, skipn_all, Nat.sub_diag. reflexivity.
Qed.

Lemma stem_slice (stem : pystr) :
  slice_from 8 (slice_to (-3) (PRODUCT_PREFIX ++ stem ++ MD_SUFFIX)) = stem.
Proof. apply (slice_middle PRODUCT_PREFIX stem MD_SUFFIX). discriminate. Qed.

(** X4: the file-name convention round trip.  From [product_<stem>.md] the
    allowlist builder gets [<stem>] back, and so does the stem extraction of
    the fusion from a path that ends in that file name (stripped), whatever
    directory comes before and with either kind of slash, for a stem that has
    no slash in it. *)
Theorem product_file_stem_round_trip (stem : pystr) :
  file_stem (PRODUCT_PREFIX ++ stem ++ MD_SUFFIX) = [stem] /\
  (forall dir sep, (sep = SLASH \/ sep = BACKSLASH) ->
     SLASH ∉ stem -> BACKSLASH ∉ stem ->
     _extract_product_stem_from_source (dir ++ sep :: PRODUCT_PREFIX ++ stem ++ MD_SUFFIX)
       = strip stem).
Proof.
  assert (Hstart : startswith PRODUCT_PREFIX (PRODUCT_PREFIX ++ stem ++ MD_SUFFIX) = true)
    by (apply startswith_spec; by eexists).
  assert (Hend : endswith MD_SUFFIX (lower (PRODUCT_PREFIX ++ stem ++ MD_SUFFIX)) = true)
    by (rewrite app_assoc; apply lower_ends_with_md).
  split.
  - unfold file_stem. by rewrite Hstart, Hend, stem_slice.
  - intros dir sep Hsep Hs Hb. unfold _extract_product_stem_from_source.
    set (seg := PRODUCT_PREFIX ++ stem ++ MD_SUFFIX).
    assert (Hsp : is_space sep = false) by (destruct Hsep as [-> | ->]; reflexivity).
    assert (Hstrip : strip (dir ++ sep :: seg) = lstrip dir ++ sep :: seg).
    { unfold strip. rewrite (lstrip_app_nonspace dir sep seg Hsp).
      subst seg. rewrite app_comm_cons, !app_assoc.
      change MD_SUFFIX with ([46; 109]%N ++ [100%N]). rewrite !app_assoc.
      by apply rstrip_app_nonspace. }
    rewrite Hstrip.
    assert (nonempty (lstrip dir ++ sep :: seg) = true) as -> by by destruct (lstrip dir).
    simpl negb. cbv iota.
    assert (Hseg : (SLASH ∉ seg) /\ (BACKSLASH ∉ seg)).
    { subst seg. split; intros Hin;
        repeat (apply elem_of_app in Hin as [Hin|Hin]); try done;
        vm_compute in Hin; apply list_elem_of_In in Hin; simpl in Hin;
        intuition discriminate. }
    destruct Hseg as [Hseg1 Hseg2].
    assert (Hbase : after_last SLASH []
                      (replace_char BACKSLASH SLASH (lstrip dir ++ sep :: seg)) = seg).
    { rewrite replace_char_app, replace_char_cons.
      rewrite (replace_char_absent BACKSLASH SLASH seg Hseg2).
      assert ((if (sep =? BACKSLASH)%N then SLASH else sep) = SLASH) as ->
        by (destruct Hsep as [-> | ->]; reflexivity).
      by apply after_last_app. }
    rewrite Hbase. subst seg. by rewrite Hstart, Hend, stem_slice.
Qed.

(** X5: the mentions extracted from a text are pieces of the text, none of
    them empty, and no two of them are equal up to letter case. *)
Theorem mentions_are_distinct_pieces (text : pystr) :
  NoDup (lower <$> extract_model_mentions text) /\
  (forall m, m ∈ extract_model_mentions text ->
     m <> [] /\ exists a b, text = a ++ m ++ b).
Proof.
  split.
  - unfold extract_model_mentions. destruct (nonempty text); [|constructor].
    apply add_all_NoDup.
  - intros m Hm. split.
    + unfold extract_model_mentions in Hm.
      destruct (nonempty text); [|by apply elem_of_nil in Hm].
      by apply elem_of_add_all in Hm as (_ & _ & _ & ?).
    + apply mention_shape in Hm as [_ Hm]. by apply scan_shape in Hm as [_ ?].
Qed.

(** X6: an answer all of whose mentions have the normalized key of some
    non-empty allowlist entry passes unchanged and unblocked, whatever the
    spelling of the mentions (case, hyphens). *)
Theorem enforce_passes_allowed_mentions (answer : pystr) (allowlist : list pystr) :
  (exists x : pystr, x ∈ allowlist /\ x <> []) ->
  (forall m, m ∈ extract_model_mentions answer ->
     exists x : pystr, x ∈ allowlist /\ x <> [] /\ normalize_key x = normalize_key m) ->
  enforce_allowlist_or_block answer allowlist = (answer, false, []).
Proof.
  intros Hne Hall. rewrite enforce_cases, (some_entry_nonempty _ Hne).
  assert (Hbad : bad_mentions answer allowlist = []).
  { destruct (bad_mentions answer allowlist) as [|m r] eqn:E; [done|]. exfalso.
    assert (Hm : m ∈ bad_mentions answer allowlist) by (rewrite E; by left).
    apply elem_of_bad_mentions in Hm as [Hm Hnot]. apply Hnot.
    apply elem_of_allow_norm. destruct (Hall m Hm) as (x & ? & ? & ?). by exists x. }
  rewrite Hbad. by destruct (negb _).
Qed.

Lemma add_all_head (x : pystr) (l : list pystr) :
  strip x <> [] -> exists r, add_all ∅ (x :: l) = strip x :: r.
Proof.
  intros Hx. simpl. destruct (strip x) eqn:E; [done|]. simpl.
  rewrite bool_decide_eq_false_2 by apply not_elem_of_empty. by eexists.
Qed.

(** X7: [build_search_queries] returns at most ten queries, none empty, no
    two equal up to letter case, and the first of them is the stripped phrase
    of the user whenever that is not empty. *)
Theorem search_queries_bounded_distinct (user_text : pystr)
    (alias_terms extra_terms : list pystr) (model_key : pystr) :
  (length (build_search_queries user_text alias_terms extra_terms model_key) <= 10)%nat /\
  NoDup (lower <$> build_search_queries user_text alias_terms extra_terms model_key) /\
  (forall q, q ∈ build_search_queries user_text alias_terms extra_terms model_key ->
     q <> []) /\
  (strip user_text <> [] ->
     head (build_search_queries user_text alias_terms extra_terms model_key)
       = Some (strip user_text)).
Proof.
  unfold build_search_queries. split; [|split; [|split]].
  - unfold slice_to. simpl. rewrite length_firstn. lia.
  - apply NoDup_lower_slice_to, add_all_NoDup.
  - intros q Hq%elem_of_slice_to. by apply elem_of_add_all in Hq as (_ & _ & _ & ?).
  - intros Hne.
    assert (Hc : exists rest,
              search_query_candidates user_text alias_terms extra_terms model_key
                = strip user_text :: rest) by (eexists; reflexivity).
    destruct Hc as [rest ->].
    destruct (add_all_head (strip user_text) rest) as [r Hr];
      [by rewrite strip_idempotent|].
    rewrite strip_idempotent in Hr. rewrite Hr. reflexivity.
Qed.

End MoreAppFacts.

Lemma truncate_text_within_limit_witness :
  (Z.of_nat (length (truncate_text (py "  UVC LED 輻照度量測與光譜分析  ") 8)) <= 8)%Z.
Proof.
  apply (truncate_text_within_limit (py "  UVC LED 輻照度量測與光譜分析  ") 8). lia.
Defined.

Lemma product_file_stem_round_trip_witness :
  _extract_product_stem_from_source
    (py "data/product_structured" ++ SLASH :: PRODUCT_PREFIX ++ py "SRI-4000UVC" ++ MD_SUFFIX)
  = strip (py "SRI-4000UVC").
Proof.
  apply (product_file_stem_round_trip (py "SRI-4000UVC")).
  - by left.
  - intros Hin. vm_compute in Hin. apply list_elem_of_In in Hin. simpl in Hin.
    intuition discriminate.
  - intros Hin. vm_compute in Hin. apply list_elem_of_In in Hin. simpl in Hin.
    intuition discriminate.
Defined.

Lemma enforce_passes_allowed_mentions_witness :
  enforce_allowlist_or_block (py "建議 sri4000uvc。") [py "SRI-4000UVC"]
    = (py "建議 sri4000uvc。", false, []).
Proof.
  apply (enforce_passes_allowed_mentions (py "建議 sri4000uvc。") [py "SRI-4000UVC"]).
  - exists (py "SRI-4000UVC"). split; [left|vm_compute; discriminate].
  - intros m Hm.
    assert (E : extract_model_mentions (py "建議 sri4000uvc。") = [py "sri4000uvc"])
      by (vm_compute; reflexivity).
    rewrite E in Hm. apply list_elem_of_singleton in Hm as ->.
    exists (py "SRI-4000UVC"). split; [left|].
    split; [vm_compute; discriminate|vm_compute; reflexivity].
Defined.

Lemma search_queries_bounded_distinct_witness :
  head (build_search_queries (py " UVC 輻照度 ") [] [py "UVC"] [])
    = Some (strip (py " UVC 輻照度 ")).
Proof.
  apply (search_queries_bounded_distinct (py " UVC 輻照度 ") [] [py "UVC"] []).
  vm_compute. discriminate.
Defined.

(** ** More on fusion and the allowlists *)

Section MoreFusionFacts.
Context `{Unicode} `{Config}.

Lemma bump_keys_NoDup item v (score : scores) :
  NoDup score.*1 -> NoDup (bump item v score).*1.
Proof.
  induction score as [|[x q] r IH]; simpl.
  - intros _. apply NoDup_singleton.
  - intros [Hx Hr]%NoDup_cons. case_bool_decide as Hxi; simpl.
    + by apply NoDup_cons.
    + apply NoDup_cons. split; [|by apply IH].
      intros [->|Hin]%elem_of_bump; [done|by apply Hx].
Qed.

Lemma score_list_NoDup k lst : forall rank (score score' : scores),
  score_list k rank lst score = Some score' -> NoDup score.*1 -> NoDup score'.*1.
Proof.
  induction lst as [|item r IH]; intros rank score score'; simpl.
  - by intros [= <-].
  - destruct (nonempty item).
    + destruct (k + rank =? 0)%Z; [discriminate|]. intros Hs Hnd.
      eapply IH; [exact Hs|]. by apply bump_keys_NoDup.
    + apply IH.
Qed.

Lemma score_lists_NoDup k ranked_lists : forall (score score' : scores),
  score_lists k ranked_lists score = Some score' -> NoDup score.*1 -> NoDup score'.*1.
Proof.
  induction ranked_lists as [|lst r IH]; intros score score'; simpl.
  - by intros [= <-].
  - destruct (score_list k 1 lst score) as [s1|] eqn:E1; [|discriminate].
    intros Hs Hnd. eapply IH; [exact Hs|]. by eapply score_list_NoDup.
Qed.

Lemma score_list_keys_nonempty k lst : forall rank (score score' : scores),
  score_list k rank lst score = Some score' ->
  Forall (fun x => x <> []) score.*1 -> Forall (fun x => x <> []) score'.*1.
Proof.
  induction lst as [|item r IH]; intros rank score score'; simpl.
  - by intros [= <-].
  - destruct (nonempty item) eqn:Hne.
    + destruct (k + rank =? 0)%Z; [discriminate|]. intros Hs Hall.
      eapply IH; [exact Hs|]. apply Forall_forall.
      intros x [->|Hin]%elem_of_bump.
      * intros ->. discriminate.
      * rewrite Forall_forall in Hall. by apply Hall.
    + apply IH.
Qed.

Lemma score_lists_keys_nonempty k ranked_lists : forall (score score' : scores),
  score_lists k ranked_lists score = Some score' ->
  Forall (fun x => x <> []) score.*1 -> Forall (fun x => x <> []) score'.*1.
Proof.
  induction ranked_lists as [|lst r IH]; intros score score'; simpl.
  - by intros [= <-].
  - destruct (score_list k 1 lst score) as [s1|] eqn:E1; [|discriminate].
    intros Hs Hall. eapply IH; [exact Hs|]. by eapply score_list_keys_nonempty.
Qed.

Lemma insert_desc_perm (x : pystr * Q) l : insert_desc x l ≡ₚ x :: l.
Proof.
  induction l as [|y r IH]; simpl; [done|].
  destruct (Qle_bool _ _); [done|]. rewrite IH. apply Permutation_swap.
Qed.

Lemma sort_desc_perm l : sort_desc l ≡ₚ l.
Proof.
  unfold sort_desc. induction l as [|x r IH]; simpl; [done|].
  by rewrite insert_desc_perm, IH.
Qed.

Lemma fmap_slice_to {A B} (f : A -> B) (n : Z) (l : list A) :
  f <$> slice_to n l = slice_to n (f <$> l).
Proof.
  unfold slice_to. rewrite length_fmap. destruct (0 <=? n)%Z; apply fmap_take.
Qed.

Lemma NoDup_slice_to {A} (n : Z) (l : list A) : NoDup l -> NoDup (slice_to n l).
Proof.
  intros Hnd. unfold slice_to.
  destruct (0 <=? n)%Z; (eapply sublist_NoDup; [exact Hnd|apply sublist_take]).
Qed.

(** X8: [rrf_fuse] never returns a key twice, and never an empty key. *)
Theorem rrf_fuse_distinct_keys (ranked_lists : list (list pystr)) (k topn : Z)
    (out : list pystr) :
  rrf_fuse ranked_lists k topn = Some out ->
  NoDup out /\ Forall (fun x => x <> []) out.
Proof.
  unfold rrf_fuse.
  destruct (score_lists k ranked_lists []) as [score|] eqn:E; [|discriminate].
  assert (Hnd : NoDup score.*1) by (eapply score_lists_NoDup; [exact E|constructor]).
  assert (Hne : Forall (fun x => x <> []) score.*1)
    by (eapply score_lists_keys_nonempty; [exact E|constructor]).
  destruct (nonempty score); intros [= <-]; [|split; constructor].
  change (List.map fst ?l) with (l.*1). rewrite fmap_slice_to.
  assert (Hp : (sort_desc score).*1 ≡ₚ score.*1) by (apply fmap_Permutation, sort_desc_perm).
  split.
  - apply NoDup_slice_to. by rewrite Hp.
  - apply Forall_forall. intros x Hx%elem_of_slice_to. rewrite Hp in Hx.
    rewrite Forall_forall in Hne. by apply Hne.
Qed.







Lemma length_add_all (l : list pystr) : forall seen : gset pystr,
  (length (add_all seen l) <= length l)%nat.
Proof.
  induction l as [|x r IH]; intros seen; simpl; [lia|].
  destruct (nonempty (strip x)); [|specialize (IH seen); lia].
  case_bool_decide; [specialize (IH seen); lia|].
  specialize (IH ({[lower (strip x)]} ∪ seen)). simpl. lia.
Qed.

Lemma add_all_complete (l : list pystr) : forall (seen : gset pystr) x,
  x ∈ l -> strip x <> [] ->
  lower (strip x) ∈ seen \/ lower (strip x) ∈ lower <$> add_all seen l.
Proof.
  induction l as [|y r IH]; intros seen x Hx Hne; [by apply elem_of_nil in Hx|].
  apply elem_of_cons in Hx as [->|Hx]; simpl.
  - destruct (strip y) eqn:E; [done|]. simpl.
    case_bool_decide as Hs; [by left|]. right. simpl. by left.
  - destruct (nonempty (strip y)); [|by apply IH].
    case_bool_decide as Hs; [by apply IH|].
    destruct (IH ({[lower (strip y)]} ∪ seen) x Hx Hne) as [Hin|Hin].
    + apply elem_of_union in Hin as [->%elem_of_singleton|Hin]; [|by left].
      right. simpl. by left.
    + right. simpl. by right.
Qed.

(** X10: the merge of the chat handler.  For a maximum that is not negative
    the merged allowlist has at most that many entries; every entry is a
    stripped entry of the two lists or a known model; and when the two lists
    together are no longer than the maximum, every entry of them that is not
    blank is in the merged allowlist up to letter case. *)
Theorem merge_allowlists_covers_sources (base_allow fused_allow known : list pystr) :
  ((0 <= ALLOWLIST_MAX_ITEMS)%Z ->
     (Z.of_nat (length (merge_allowlists base_allow fused_allow known).1)
        <= ALLOWLIST_MAX_ITEMS)%Z) /\
  (forall p, p ∈ (merge_allowlists base_allow fused_allow known).1 ->
     (exists x, x ∈ base_allow ++ fused_allow /\ p = strip x) \/ p ∈ known) /\
  ((Z.of_nat (length (base_allow ++ fused_allow)) <= ALLOWLIST_MAX_ITEMS)%Z ->
     forall x, x ∈ base_allow ++ fused_allow -> strip x <> [] ->
       lower (strip x) ∈ lower <$> (merge_allowlists base_allow fused_allow known).1).
Proof.
  unfold merge_allowlists. cbn [fst].
  set (merged := add_all ∅ (base_allow ++ fused_allow)).
  split; [|split].
  - intros Hmax. by apply length_slice_to.
  - intros p Hp%elem_of_slice_to.
    destruct (negb (nonempty merged) && FUSION_FORCE_NONEMPTY && nonempty known).
    + right. by apply elem_of_slice_to in Hp.
    + left. apply elem_of_add_all in Hp as (x & ? & ? & _). by exists x.
  - intros Hlen x Hx Hne.
    destruct (add_all_complete _ ∅ x Hx Hne) as [Hin|Hin];
      [by apply not_elem_of_empty in Hin|]. fold merged in Hin.
    assert (Hm : nonempty merged = true).
    { destruct merged; [|done]. by apply elem_of_nil in Hin. }
    rewrite Hm. cbn [negb andb].
    assert (Hml := length_add_all (base_allow ++ fused_allow) ∅). fold merged in Hml.
    assert (slice_to ALLOWLIST_MAX_ITEMS merged = merged) as ->; [|done].
    unfold slice_to. destruct (Z.leb_spec 0 ALLOWLIST_MAX_ITEMS); [|lia].
    apply firstn_all2. lia.
Qed.


End MoreFusionFacts.

Lemma rrf_fuse_distinct_keys_witness :
  exists out, rrf_fuse [bm_example; vec_example] 60 24 = Some out /\ NoDup out.
Proof.
  destruct (rrf_fuse [bm_example; vec_example] 60 24) as [out|] eqn:E;
    [|vm_compute in E; discriminate].
  exists out. split; [reflexivity|].
  exact (proj1 (rrf_fuse_distinct_keys [bm_example; vec_example] 60 24 out E)).
Defined.


Lemma merge_allowlists_covers_sources_witness :
  lower (strip (py " sri-4000uvc "))
    ∈ lower <$> (merge_allowlists [py "SRI-4000UVC"] [py " sri-4000uvc "; py "LI-100"] []).1.
Proof.
  destruct (merge_allowlists_covers_sources
              [py "SRI-4000UVC"] [py " sri-4000uvc "; py "LI-100"] []) as (_ & _ & Hcov).
  apply Hcov.
  - cbn. lia.
  - right. left.
  - vm_compute. discriminate.
Defined.

Lemma filter_le_length_gen {A} (p : A -> bool) (l : list A) :
  (length (List.filter p l) <= length l)%nat.
Proof. induction l as [|x r IH]; simpl; [lia|]. destruct (p x); simpl; lia. Qed.

(** ** More on trimming *)

Section MoreTrimFacts.
Context `{Unicode}.
Variable build : list pystr -> pystr.
Variable max_chars : Z.

Lemma pop_last_sublist kind l l' : pop_last kind l = Some l' -> l' `sublist_of` l.
Proof.
  revert l'. induction l as [|x r IH]; intros l'; simpl; [discriminate|].
  destruct (pop_last kind r) as [r'|].
  - intros [= <-]. apply sublist_skip. by apply IH.
  - destruct (kind x); [|discriminate]. intros [= <-]. by apply sublist_cons.
Qed.

Lemma drop_kind_sublist kind fuel : forall l,
  drop_kind build max_chars kind fuel l `sublist_of` l.
Proof.
  induction fuel as [|n IH]; intros l; simpl; [done|].
  destruct (over build max_chars l); [|done].
  destruct (pop_last kind l) as [l'|] eqn:E; [|done].
  etransitivity; [apply IH|]. by eapply pop_last_sublist.
Qed.

Lemma removelast_sublist (l : list pystr) : removelast l `sublist_of` l.
Proof.
  induction l as [|x r IH]; [done|]. destruct r as [|y r].
  - apply sublist_nil_l.
  - change (removelast (x :: y :: r)) with (x :: removelast (y :: r)).
    by apply sublist_skip.
Qed.

Lemma drop_trailing_sublist fuel : forall l,
  drop_trailing build max_chars fuel l `sublist_of` l.
Proof.
  induction fuel as [|n IH]; intros l; cbn [drop_trailing]; [done|].
  destruct (over build max_chars l && (2 <? length l)%nat); [|done].
  etransitivity; [apply IH|]. apply removelast_sublist.
Qed.

Lemma length_slice_to_input {A} (n : Z) (l : list A) :
  (length (slice_to n l) <= length l)%nat.
Proof. unfold slice_to. destruct (0 <=? n)%Z; rewrite length_firstn; lia. Qed.

Lemma length_truncate_text s (m : Z) :
  (length (truncate_text s m) <= length s)%nat.
Proof.
  unfold truncate_text. assert (Hs := length_strip s).
  destruct (nonempty (strip s)) eqn:Hne; simpl; [|lia].
  destruct (Z.leb_spec (Z.of_nat (length (strip s))) m) as [Hfit|Hlong]; [done|].
  rewrite length_app. change (length ELLIPSIS) with 1%nat.
  assert (Hr := length_rstrip (slice_to (m - 1) (strip s))).
  unfold slice_to in *. destruct (Z.leb_spec 0 (m - 1)).
  - rewrite length_firstn in Hr. lia.
  - rewrite length_firstn in Hr. destruct (strip s); [discriminate|]. simpl in *. lia.
Qed.

Lemma split_line_parts b h body :
  split_line b = Some (h, body) -> b = h ++ [NEWLINE] ++ body /\ (NEWLINE ∉ h).
Proof.
  revert h. induction b as [|c r IH]; intros h; simpl; [discriminate|].
  destruct (N.eqb_spec c NEWLINE) as [->|Hc].
  - intros [= <- <-]. split; [done|]. apply not_elem_of_nil.
  - destruct (split_line r) as [[h' body']|]; [|discriminate].
    intros [= <- <-]. destruct (IH h' eq_refl) as [-> Hh]. split; [done|].
    intros [?|?]%elem_of_cons; [congruence|done].
Qed.

(** X12: trimming only drops blocks or shortens document blocks.  The blocks
    returned are, in their order, blocks of the input, or such blocks with
    the loop that shortens document blocks applied; that loop never makes a
    block longer and keeps its first line. *)
Theorem trim_drops_or_shortens (context_blocks : list pystr) :
  ((prompt_guard_trim build max_chars context_blocks).1 `sublist_of` context_blocks \/
   (prompt_guard_trim build max_chars context_blocks).1
     `sublist_of` (shorten_doc <$> context_blocks)) /\
  (forall b, (length (shorten_doc b) <= length b)%nat /\
     (shorten_doc b = b \/
      exists h body, b = h ++ [NEWLINE] ++ body /\ (NEWLINE ∉ h) /\
                     shorten_doc b = h ++ [NEWLINE] ++ truncate_text body 700)).
Proof.
  split.
  - unfold prompt_guard_trim.
    set (b1 := drop_kind build max_chars is_rag (length context_blocks) context_blocks).
    set (b2 := drop_kind build max_chars is_db (length b1) b1).
    set (b3 := List.map shorten_doc b2).
    assert (S1 : b1 `sublist_of` context_blocks) by apply drop_kind_sublist.
    assert (S2 : b2 `sublist_of` b1) by apply drop_kind_sublist.
    destruct (over build max_chars context_blocks); cbn [negb fst]; [|by left].
    destruct (over build max_chars b1); cbn [negb fst]; [|by left].
    destruct (over build max_chars b2); cbn [negb fst];
      [|left; by etransitivity].
    right. etransitivity; [apply drop_trailing_sublist|].
    apply (fmap_sublist shorten_doc). by etransitivity.
  - intros b. unfold shorten_doc. destruct (startswith DOC_TAG b); [|split; [lia|by left]].
    destruct (split_line b) as [[h body]|] eqn:E; [|split; [lia|by left]].
    destruct (split_line_parts _ _ _ E) as [Hb Hh]. split.
    + rewrite Hb. rewrite !length_app.
      assert (Ht := length_truncate_text body 700). lia.
    + right. by exists h, body.
Qed.

End MoreTrimFacts.

(** ** The BM25 tokenizer, index and score *)

Section TokenFacts.
Context `{Unicode}.

Lemma runs_from_spec (p : N -> bool) s : forall cur w,
  Forall (fun c => p c = true) cur -> w ∈ runs_from p cur s ->
  w <> [] /\ Forall (fun c => p c = true) w.
Proof.
  induction s as [|c r IH]; intros cur w Hcur; simpl.
  - unfold flush. destruct cur; simpl; [by intros ?%elem_of_nil|].
    by intros ->%list_elem_of_singleton.
  - destruct (p c) eqn:Hc.
    + apply IH. apply Forall_app. split; [done|]. by constructor.
    + intros [Hw|Hw]%elem_of_app; [|by apply (IH [] w)].
      unfold flush in Hw. destruct cur; simpl in Hw; [by apply elem_of_nil in Hw|].
      by apply list_elem_of_singleton in Hw as ->.
Qed.

Lemma bigrams_spec seg w :
  w ∈ bigrams seg -> length w = 2%nat /\ forall c, c ∈ w -> c ∈ seg.
Proof.
  induction seg as [|a r IH]; [by intros ?%elem_of_nil|].
  destruct r as [|b r]; [by intros ?%elem_of_nil|].
  change (bigrams (a :: b :: r)) with ([a; b] :: bigrams (b :: r)).
  intros [->|Hw]%elem_of_cons.
  - split; [done|]. intros c [->|[->|?%elem_of_nil]%elem_of_cons]%elem_of_cons;
      [by left|by right; left|done].
  - destruct (IH Hw) as [? Hin]. split; [done|]. intros c Hc. right. by apply Hin.
Qed.

Lemma cjk_tokens_spec seg w :
  Forall (fun c => is_cjk c = true) seg -> w ∈ cjk_tokens seg ->
  (2 <= length w)%nat /\ Forall (fun c => is_cjk c = true) w.
Proof.
  intros Hseg. unfold cjk_tokens.
  assert (Hs : Forall (fun c => is_cjk c = true) (strip seg)) by by apply Forall_strip.
  destruct (Nat.ltb_spec (length (strip seg)) 2); [by intros ?%elem_of_nil|].
  intros [->|Hw]%elem_of_cons; [done|].
  destruct (bigrams_spec _ _ Hw) as [Hlen Hin]. split; [lia|].
  apply Forall_forall. intros c Hc. rewrite Forall_forall in Hs. by apply Hs, Hin.
Qed.

Lemma length_bm25_tokenize text (max_tokens : Z) :
  (0 <= max_tokens)%Z -> (Z.of_nat (length (bm25_tokenize text max_tokens)) <= max_tokens)%Z.
Proof.
  intros Hmax. unfold bm25_tokenize. destruct (nonempty text); simpl; [|lia].
  match goal with |- context [(max_tokens <? ?n)%Z] => destruct (Z.ltb_spec max_tokens n) end;
    [by apply length_slice_to|lia].
Qed.

(** X13: the tokens of [bm25_tokenize].  Each has at least two characters
    and is a run of ASCII letters and digits or a run of CJK ideographs; for
    a maximum that is not negative there are at most that many; and the empty
    text has none. *)
Theorem bm25_tokens_shape (text : pystr) (max_tokens : Z) :
  ((0 <= max_tokens)%Z ->
     (Z.of_nat (length (bm25_tokenize text max_tokens)) <= max_tokens)%Z) /\
  (forall w, w ∈ bm25_tokenize text max_tokens ->
     (2 <= length w)%nat /\
     (Forall (fun c => is_latin c = true) w \/ Forall (fun c => is_cjk c = true) w)) /\
  bm25_tokenize [] max_tokens = [].
Proof.
  split; [apply length_bm25_tokenize|]. split; [|done].
  intros w. unfold bm25_tokenize. destruct (nonempty text); simpl; [|by intros ?%elem_of_nil].
  set (tokens := _ ++ _).
  assert (Htok : w ∈ tokens -> (2 <= length w)%nat /\
     (Forall (fun c => is_latin c = true) w \/ Forall (fun c => is_cjk c = true) w)).
  { subst tokens. intros [Hw|Hw]%elem_of_app.
    - apply list_elem_of_In, filter_In in Hw as [Hw Hlen].
      change ((2 <=? length w)%nat = true) in Hlen. apply Nat.leb_le in Hlen.
      apply list_elem_of_In, runs_from_spec in Hw as [_ Hw]; [|constructor].
      split; [done|by left].
    - apply list_elem_of_In, in_concat in Hw as (l & Hl & Hw).
      apply in_map_iff in Hl as (seg & <- & Hseg).
      apply filter_In in Hseg as [Hseg _].
      apply list_elem_of_In, runs_from_spec in Hseg as [_ Hseg]; [|constructor].
      apply list_elem_of_In in Hw. destruct (cjk_tokens_spec _ _ Hseg Hw). split; [done|by right]. }
  destruct (max_tokens <? Z.of_nat (length tokens))%Z; [|done].
  intros Hw%elem_of_slice_to. by apply Htok.
Qed.

End TokenFacts.

Section IndexFacts.
Context `{Unicode}.

Lemma counter_add_keys t (c : list (pystr * nat)) x :
  x ∈ (counter_add t c).*1 <-> x = t \/ x ∈ c.*1.
Proof.
  induction c as [|[y n] r IH]; simpl.
  - rewrite list_elem_of_singleton. split; [by left|]. intros [?|?%elem_of_nil]; done.
  - case_bool_decide as Hy; simpl; rewrite !elem_of_cons.
    + subst y. tauto.
    + rewrite IH. tauto.
Qed.

Lemma counter_add_NoDup t (c : list (pystr * nat)) :
  NoDup c.*1 -> NoDup (counter_add t c).*1.
Proof.
  induction c as [|[y n] r IH]; simpl.
  - intros _. apply NoDup_singleton.
  - intros [Hy Hr]%NoDup_cons. case_bool_decide as Hyt; simpl.
    + by apply NoDup_cons.
    + apply NoDup_cons. split; [|by apply IH].
      intros [->|Hin]%counter_add_keys; done.
Qed.

Lemma counter_add_positive t (c : list (pystr * nat)) :
  Forall (fun p => (0 < p.2)%nat) c -> Forall (fun p => (0 < p.2)%nat) (counter_add t c).
Proof.
  induction c as [|[y n] r IH]; simpl.
  - intros _. repeat constructor.
  - intros [Hy Hr]%Forall_cons. case_bool_decide; constructor; simpl in *; auto with lia.
Qed.

Lemma counter_add_sum t (c : list (pystr * nat)) :
  list_sum (List.map snd (counter_add t c)) = S (list_sum (List.map snd c)).
Proof.
  induction c as [|[y n] r IH]; simpl; [done|].
  case_bool_decide; simpl; [done|]. rewrite IH. lia.
Qed.

(** What the folds of [Counter] keep: distinct keys, positive counts, and the
    number of tokens as the sum. *)
Lemma Counter_from toks : forall c : list (pystr * nat),
  NoDup c.*1 -> Forall (fun p => (0 < p.2)%nat) c ->
  NoDup (fold_left (fun c t => counter_add t c) toks c).*1 /\
  Forall (fun p => (0 < p.2)%nat) (fold_left (fun c t => counter_add t c) toks c) /\
  list_sum (List.map snd (fold_left (fun c t => counter_add t c) toks c))
    = (list_sum (List.map snd c) + length toks)%nat.
Proof.
  induction toks as [|t r IH]; intros c Hnd Hpos; simpl.
  - split; [done|]. split; [done|lia].
  - destruct (IH (counter_add t c)) as (? & ? & Hsum);
      [by apply counter_add_NoDup|by apply counter_add_positive|].
    split; [done|]. split; [done|]. rewrite Hsum, counter_add_sum. lia.
Qed.

Lemma counter_get_positive (c : list (pystr * nat)) term :
  Forall (fun p => (0 < p.2)%nat) c ->
  (0 <? counter_get c term)%nat = bool_decide (term ∈ c.*1).
Proof.
  induction c as [|[y n] r IH]; simpl; [done|].
  intros [Hy Hr]%Forall_cons. simpl in Hy. destruct (decide (y = term)) as [<-|Hyt].
  - rewrite (bool_decide_eq_true_2 (y = y)) by done.
    rewrite bool_decide_eq_true_2 by by left. by apply Nat.ltb_lt.
  - rewrite (bool_decide_eq_false_2 (y = term)) by done. rewrite IH by done.
    apply bool_decide_ext. rewrite elem_of_cons.
    split; [by right|]. intros [?|?]; [congruence|done].
Qed.

Lemma df_bump_lookup (terms : list pystr) : forall (d : gmap pystr nat) term,
  NoDup terms ->
  default 0%nat (df_bump d terms !! term)
    = (default 0%nat (d !! term) + if bool_decide (term ∈ terms) then 1 else 0)%nat.
Proof.
  unfold df_bump. induction terms as [|t r IH]; intros d term Hnd; cbn [fold_left].
  - rewrite bool_decide_eq_false_2 by apply not_elem_of_nil. lia.
  - apply NoDup_cons in Hnd as [Ht Hr]. rewrite IH by done.
    destruct (decide (term = t)) as [->|Hne].
    + rewrite lookup_insert_eq. simpl.
      rewrite (bool_decide_eq_false_2 (t ∈ r)) by done.
      rewrite bool_decide_eq_true_2 by by left. lia.
    + rewrite lookup_insert_ne by done.
      case_bool_decide as Hin; case_bool_decide as Hin'; try lia.
      * exfalso. apply Hin'. by right.
      * exfalso. apply elem_of_cons in Hin' as [?|?]; done.
Qed.

Lemma index_doc_ok max_chars ix doc : index_ok ix -> index_ok (index_doc max_chars ix doc).
Proof.
  intros (H1 & H2 & H3 & H4 & H5 & H6). destruct doc as [[doc_id src] text].
  unfold index_doc.
  set (raw := if nonempty (strip text) then slice_to max_chars (strip text) else []).
  destruct (Counter_from (bm25_tokenize raw 220) [])
    as (Hnd & Hpos & Hsum); [constructor|constructor|].
  fold (Counter (bm25_tokenize raw 220)) in Hnd, Hpos, Hsum.
  set (c := Counter (bm25_tokenize raw 220)) in *.
  assert (Hlen := length_bm25_tokenize raw 220 ltac:(lia)).
  unfold index_ok. cbn [doc_ids doc_sources doc_text_snippets tf df dl].
  rewrite !length_app. cbn [length].
  split; [lia|]. split; [lia|]. split; [lia|]. split; [lia|]. split.
  - apply Forall_app. split; [done|]. constructor; [|constructor]. simpl in Hsum. lia.
  - intros term. rewrite List.filter_app, length_app. cbn [List.filter].
    rewrite (counter_get_positive c term Hpos).
    destruct (Nat.ltb_spec 0 (list_sum (List.map snd c))) as [Hd|Hd].
    + rewrite df_bump_lookup by done. rewrite H6.
      change (List.map fst c) with (c.*1). by case_bool_decide.
    + rewrite H6. destruct c as [|[y n] r].
      * rewrite bool_decide_eq_false_2 by apply not_elem_of_nil. simpl. lia.
      * apply Forall_cons in Hpos as [Hy _]. simpl in Hy, Hd. lia.
Qed.

Lemma fold_index_ok max_chars docs : forall ix,
  index_ok ix ->
  index_ok (fold_left (index_doc max_chars) docs ix) /\
  length (tf (fold_left (index_doc max_chars) docs ix)) = (length (tf ix) + length docs)%nat.
Proof.
  induction docs as [|doc r IH]; intros ix Hok; simpl; [split; [done|lia]|].
  destruct (IH (index_doc max_chars ix doc)) as [Hok' Hlen]; [by apply index_doc_ok|].
  split; [done|]. rewrite Hlen. destruct doc as [[doc_id src] text].
  unfold index_doc. cbn [tf]. rewrite length_app. simpl. lia.
Qed.

(** X14: what [build] leaves in the index.  The lists of ids, sources,
    snippets, term counts and lengths have one entry per document; no length
    exceeds 220; the document frequency of a term is the number of documents
    whose term count has it, so it never exceeds the number of documents; and
    the index is marked ready exactly when there is a document. *)
Theorem bm25_build_document_frequency (docs : list (pystr * pystr * pystr))
    (max_chars : Z) (term : pystr) :
  length (doc_ids (bm25_build docs max_chars)) = length docs /\
  length (doc_sources (bm25_build docs max_chars)) = length docs /\
  length (doc_text_snippets (bm25_build docs max_chars)) = length docs /\
  length (tf (bm25_build docs max_chars)) = length docs /\
  length (dl (bm25_build docs max_chars)) = length docs /\
  Forall (fun d => (d <= 220)%nat) (dl (bm25_build docs max_chars)) /\
  default 0%nat (df (bm25_build docs max_chars) !! term)
    = length (List.filter (fun c => (0 <? counter_get c term)%nat)
                (tf (bm25_build docs max_chars))) /\
  (default 0%nat (df (bm25_build docs max_chars) !! term) <= length docs)%nat /\
  _ready (bm25_build docs max_chars) = nonempty docs.
Proof.
  assert (H0 : index_ok empty_index).
  { unfold index_ok. simpl. repeat split; try done. }
  unfold bm25_build. destruct docs as [|doc r]; cbn [nonempty negb].
  { simpl. repeat split; try done. }
  destruct (fold_index_ok max_chars (doc :: r) empty_index H0)
    as [(H1 & H2 & H3 & H4 & H5 & H6) Hlen].
  cbn [doc_ids doc_sources doc_text_snippets tf df dl _ready].
  set (ix := fold_left (index_doc max_chars) (doc :: r) empty_index) in *.
  change (length (tf empty_index)) with 0%nat in Hlen.
  repeat split; try lia; try done.
  rewrite H6. etransitivity; [apply filter_le_length_gen|]. lia.
Qed.

End IndexFacts.

Section ScoreFacts.
Local Open Scope R_scope.
Variables k1 b : R.
Variable N : nat.
Variable stored_avgdl : R.
Hypothesis k1_nonneg : 0 <= k1.
Hypothesis b_range : 0 <= b <= 1.




Lemma score_fold_ge (df tf : pystr -> nat) dl (q_tf : list (pystr * nat)) : forall a,
  (forall t, (df t <= N)%nat) ->
  a <= fold_left (fun score tq => score + BM25.term_score k1 b N stored_avgdl dl
                    (df (fst tq)) (tf (fst tq)) (snd tq)) q_tf a.
Proof.
  induction q_tf as [|[t qf] r IH]; intros a Hdf; simpl; [lra|].
  etransitivity; [|apply IH; exact Hdf].
  assert (Ht := term_score_nonneg k1 b N stored_avgdl k1_nonneg b_range dl (df t) (tf t) qf (Hdf t)).
  lra.
Qed.

End ScoreFacts.



(** ** More on the requirement dialogue *)

Section MoreDecisionFacts.
Context `{Unicode}.
Import Decision.

Lemma advance_control_reset st text :
  _is_control text = Reset ->
  exists st' reply, advance st text = Some (st', reply) /\
    active st' = true /\ step st' = 0%Z /\ answers st' = ∅ /\ finished st' = false /\
    reply <> [].
Proof.
  intros Hc. unfold advance. rewrite Hc. do 2 eexists. split; [reflexivity|].
  repeat split. discriminate.
Qed.

Lemma advance_control_cancel st text :
  _is_control text = Cancel ->
  exists st' reply, advance st text = Some (st', reply) /\
    active st' = false /\ step st' = step st /\ answers st' = answers st /\
    finished st' = false /\ reply <> [].
Proof.
  intros Hc. unfold advance. rewrite Hc. do 2 eexists. split; [reflexivity|].
  repeat split. discriminate.
Qed.

(** The first call on a fresh state asks the first question and stores
    nothing. *)
Lemma advance_prompt st text :
  _is_control text = NoControl -> (step st <= 0)%Z -> last_question st = [] ->
  exists st' reply, advance st text = Some (st', reply) /\
    active st' = active st /\ step st' = 0%Z /\ answers st' = answers st /\
    finished st' = finished st /\ last_question st' <> [] /\ reply <> [].
Proof.
  intros Hc Hs Hq. unfold advance. rewrite Hc, Hq.
  destruct (Z.leb_spec (step st) 0); [|lia]. cbn [andb negb nonempty].
  do 2 eexists. split; [reflexivity|]. repeat split; discriminate.
Qed.

(** An answer to the question of the step: it is stored under the key of the
    question, and the dialogue goes to the next question or finishes. *)
Lemma advance_answer st text qu :
  _is_control text = NoControl -> (0 <= step st < 3)%Z ->
  (0 < step st)%Z \/ last_question st <> [] ->
  nth_error _questions (Z.to_nat (step st)) = Some qu ->
  exists st' reply, advance st text = Some (st', reply) /\
    step st' = (step st + 1)%Z /\
    answers st' = <[ key qu := if _is_unknown (_norm text) (key qu) then [] else _norm text ]>
                    (answers st) /\
    reply <> [] /\
    (if (step st =? 2)%Z
     then active st' = false /\ finished st' = true /\ last_question st' = []
     else active st' = active st /\ finished st' = finished st /\ last_question st' <> []).
Proof.
  intros Hc Hs Hq Hqu. unfold advance. rewrite Hc.
  assert (((step st <=? 0)%Z && negb (nonempty (last_question st))) = false) as ->.
  { destruct Hq as [Hq|Hq].
    - destruct (Z.leb_spec (step st) 0); [lia|done].
    - destruct (last_question st); [done|]. by rewrite andb_false_r. }
  rewrite questions_length, Hqu.
  destruct (Z.leb_spec 0 (step st)); [|lia].
  destruct (Z.ltb_spec (step st) (Z.of_nat 3)); [|lia]. cbn [andb].
  destruct (Z.leb_spec (Z.of_nat 3) (step st + 1)) as [Hlast|Hmore].
  - do 2 eexists. split; [reflexivity|]. cbn [step answers active finished last_question].
    assert (step st = 2)%Z as -> by lia. repeat split. discriminate.
  - assert (Hnext : (step st = 0 \/ step st = 1)%Z) by lia.
    destruct (Z.eqb_spec (step st) 2); [lia|].
    destruct Hnext as [-> | ->]; cbn [Z.add Pos.add index Z.leb nth_error Z.to_nat
                                       Pos.to_nat Pos.iter_op Nat.add _questions q];
      (do 2 eexists; split; [reflexivity|]; cbn [step answers active finished last_question];
       repeat split; discriminate).
Qed.

(** X16: the dialogue state that the handler stores stays well formed, and
    the handler never fails in [advance].  Whatever the message, from no
    stored state or a well-formed one the turn is an asked question with a
    well-formed state and a reply that is not empty, or an answer outside
    the dialogue that leaves the stored state as it is or clears it; query
    terms are taken from a finished state only, which has an answer for each
    of the three questions. *)
Theorem handler_keeps_dialogue_well_formed (stored : option State) (user_text : pystr) :
  (forall st, stored = Some st -> dialogue_ok st) ->
  exists turn, decision_turn stored user_text = Some turn /\
    match turn with
    | Asked st' reply => dialogue_ok st' /\ reply <> []
    | Answered stored' terms_from =>
        (stored' = stored \/ stored' = None) /\
        forall st, terms_from = Some st ->
          finished st = true /\
          forall qu, qu ∈ _questions -> is_Some (answers st !! key qu)
    end.
Proof.
  intros Hok. unfold decision_turn.
  set (ds := match stored with
             | Some st => Some st
             | None => if should_enter_decision user_text then Some new_state else None
             end).
  assert (Hds : forall st, ds = Some st -> dialogue_ok st).
  { intros st. subst ds. destruct stored as [st0|].
    - intros [= <-]. by apply Hok.
    - destruct (should_enter_decision user_text); [|discriminate].
      intros [= <-]. unfold dialogue_ok. simpl.
      split; [lia|]. split; [by split|]. split; [discriminate|]. intros i qu Hi. lia. }
  assert (Hstored : forall st, ds = Some st -> active st = false -> stored = Some st).
  { intros st. subst ds. destruct stored as [st0|]; [done|].
    destruct (should_enter_decision user_text); [|discriminate]. by intros [= <-]. }
  destruct ds as [st|]; [|eexists; split; [reflexivity|]; split; [by left|discriminate]].
  destruct (Hds st eq_refl) as (Hstep & Hact & Hfin & Hans).
  destruct (active st) eqn:Ea.
  - destruct (Hact eq_refl) as [Hle Hnf].
    destruct (_is_control user_text) eqn:Hc.
    + destruct (advance_control_reset st user_text Hc)
        as (st' & reply & -> & Ha & Hs & Hw & Hf & Hr).
      eexists. split; [reflexivity|]. split; [|done].
      unfold dialogue_ok. rewrite Ha, Hs, Hf.
      split; [lia|]. split; [by split|]. split; [discriminate|]. simpl. intros i qu Hi. lia.
    + destruct (advance_control_cancel st user_text Hc)
        as (st' & reply & -> & Ha & Hs & Hw & Hf & Hr).
      eexists. split; [reflexivity|]. split; [|done].
      unfold dialogue_ok. rewrite Ha, Hs, Hf, Hw.
      split; [lia|]. split; [discriminate|]. split; [discriminate|]. exact Hans.
    + destruct (decide ((step st <= 0)%Z /\ last_question st = [])) as [[H0 Hq]|Hno].
      * destruct (advance_prompt st user_text Hc H0 Hq)
          as (st' & reply & -> & Ha & Hs & Hw & Hf & _ & Hr).
        eexists. split; [reflexivity|]. split; [|done].
        unfold dialogue_ok. rewrite Ha, Hs, Hf, Hw, Ea.
        split; [lia|]. split; [by split|]. split; [congruence|]. simpl. intros i qu Hi. lia.
      * assert (Hq : (0 < step st)%Z \/ last_question st <> []).
        { destruct (decide (last_question st = [])) as [El|El]; [left|by right].
          destruct (Z.leb_spec (step st) 0); [|lia]. exfalso. apply Hno. by split. }
        assert (Hnth : is_Some (nth_error _questions (Z.to_nat (step st)))).
        { destruct (nth_error _questions (Z.to_nat (step st))) eqn:En; [by eexists|].
          apply nth_error_None in En. rewrite questions_length in En. lia. }
        destruct Hnth as [qu Hqu].
        destruct (advance_answer st user_text qu Hc ltac:(lia) Hq Hqu)
          as (st' & reply & -> & Hs & Hw & Hr & Hrest).
        eexists. split; [reflexivity|]. split; [|done].
        assert (Hans' : forall i qu', (i < Z.to_nat (step st'))%nat ->
                  nth_error _questions i = Some qu' -> is_Some (answers st' !! key qu')).
        { intros i qu' Hi Hqu'. rewrite Hw.
          destruct (decide (key qu = key qu')) as [->|Hk]; [by rewrite lookup_insert_eq|].
          rewrite lookup_insert_ne by done.
          destruct (decide (i = Z.to_nat (step st))) as [->|Hne]; [congruence|].
          apply (Hans i); [lia|done]. }
        unfold dialogue_ok. rewrite Hs.
        destruct (Z.eqb_spec (step st) 2) as [E2|E2].
        -- destruct Hrest as (Ha & Hf & _). rewrite Ha, Hf.
           split; [lia|]. split; [discriminate|]. split; [lia|]. rewrite Hs in Hans'. exact Hans'.
        -- destruct Hrest as (Ha & Hf & _). rewrite Ha, Hf, Ea, Hnf.
           split; [lia|]. split; [split; [lia|done]|]. split; [discriminate|].
           rewrite Hs in Hans'. exact Hans'.
  - specialize (Hstored st eq_refl Ea).
    destruct (finished st) eqn:Ef.
    + eexists. split; [reflexivity|]. split; [by right|].
      intros st0 [= <-]. split; [done|]. intros qu Hqu.
      apply list_elem_of_In, In_nth_error in Hqu as [i Hi].
      assert (Hlt : (i < length _questions)%nat) by (apply nth_error_Some; congruence).
      rewrite questions_length in Hlt.
      apply (Hans i); [rewrite (Hfin eq_refl); simpl; lia|exact Hi].
    + eexists. split; [reflexivity|]. split; [by left|discriminate].
Qed.

(** X17: a cancelled dialogue is not entered again.  When a control word
    of cancel comes in an active dialogue, the state stored is inactive and
    unfinished, with the answers kept; on every later message the handler
    answers outside the dialogue, leaves that state stored and takes no query
    terms from it, whether or not the message asks for a selection. *)
Theorem cancelled_dialogue_is_not_reentered (st : State) (user_text : pystr) :
  active st = true -> _is_control user_text = Cancel ->
  exists st' reply,
    decision_turn (Some st) user_text = Some (Asked st' reply) /\
    answers st' = answers st /\
    forall later, decision_turn (Some st') later = Some (Answered (Some st') None).
Proof.
  intros Ha Hc. unfold decision_turn at 1. rewrite Ha.
  destruct (advance_control_cancel st user_text Hc)
    as (st' & reply & -> & Ha' & _ & Hw & Hf & _).
  exists st', reply. split; [reflexivity|]. split; [done|].
  intros later. unfold decision_turn. by rewrite Ha', Hf.
Qed.

(** X18: the whole dialogue.  From the new state, a first message and
    three answers, none with a control word, finish the dialogue: the state
    is inactive and finished at step 3, and holds under the keys of the three
    questions the three answers, stripped, or the empty string for an answer
    that [_is_unknown] takes as unknown.  The first message is not stored. *)
Theorem three_answers_finish_the_dialogue (first a1 a2 a3 : pystr) :
  _is_control first = NoControl -> _is_control a1 = NoControl ->
  _is_control a2 = NoControl -> _is_control a3 = NoControl ->
  exists st, run new_state [first; a1; a2; a3] = Some st /\
    active st = false /\ finished st = true /\ step st = 3%Z /\
    answers st =
      <[ "scene_constraints"%string :=
           if _is_unknown (_norm a3) "scene_constraints" then [] else _norm a3 ]>
        (<[ "object_band"%string :=
              if _is_unknown (_norm a2) "object_band" then [] else _norm a2 ]>
           (<[ "target"%string :=
                 if _is_unknown (_norm a1) "target" then [] else _norm a1 ]> ∅)).
Proof.
  intros H0 H1 H2 H3. cbn [run].
  destruct (advance_prompt new_state first H0 ltac:(simpl; lia) eq_refl)
    as (s1 & r1 & -> & Ha1 & Hs1 & Hw1 & Hf1 & Hq1 & _).
  destruct (advance_answer s1 a1 _ H1 ltac:(lia) (or_intror Hq1)
              ltac:(rewrite Hs1; reflexivity))
    as (s2 & r2 & -> & Hs2 & Hw2 & _ & Hr2).
  rewrite Hs1 in Hs2, Hr2. cbn in Hs2. cbn [Z.eqb] in Hr2.
  assert (P2 : (0 < step s2)%Z) by lia.
  destruct (advance_answer s2 a2 _ H2 ltac:(lia) (or_introl P2)
              ltac:(rewrite Hs2; reflexivity))
    as (s3 & r3 & -> & Hs3 & Hw3 & _ & Hr3).
  rewrite Hs2 in Hs3, Hr3. cbn in Hs3. cbn [Z.eqb Pos.eqb] in Hr3.
  assert (P3 : (0 < step s3)%Z) by lia.
  destruct (advance_answer s3 a3 _ H3 ltac:(lia) (or_introl P3)
              ltac:(rewrite Hs3; reflexivity))
    as (s4 & r4 & -> & Hs4 & Hw4 & _ & Hr4).
  rewrite Hs3 in Hs4, Hr4. cbn in Hs4. cbn [Z.eqb Pos.eqb] in Hr4.
  destruct Hr4 as (Ha4 & Hf4 & _).
  exists s4. split; [reflexivity|]. split; [done|]. split; [done|]. split; [done|].
  rewrite Hw4, Hw3, Hw2, Hw1. reflexivity.
Qed.

Lemma extract_models_strip t : _extract_models (strip t) = _extract_models t.
Proof. unfold _extract_models, _norm. by rewrite strip_idempotent. Qed.

Lemma has_any_strip t keys : _has_any (strip t) keys = _has_any t keys.
Proof. unfold _has_any, _lower, _norm. by rewrite strip_idempotent. Qed.

(** X19: when the dialogue is entered.  A blank message never enters it,
    nor a message with two distinct model tokens or more; a message with no
    model token enters it exactly when it has one of the trigger words; and a
    message with one model token enters it exactly when it has no [vs], no
    word of comparison and one of the narrower trigger words. *)
Theorem should_enter_decision_by_model_count (user_text : pystr) :
  (strip user_text = [] -> should_enter_decision user_text = false) /\
  ((2 <= length (_extract_models user_text))%nat ->
     should_enter_decision user_text = false) /\
  (strip user_text <> [] -> _extract_models user_text = [] ->
     should_enter_decision user_text = _has_any user_text triggers) /\
  (length (_extract_models user_text) = 1%nat ->
     should_enter_decision user_text
       = negb (VS_RE_search (strip user_text))
         && negb (_has_any user_text
                    [py "比較"; py "差異"; py "哪個好"; py "哪個較好"; py "差別"])
         && _has_any user_text model_triggers).
Proof.
  unfold should_enter_decision, _looks_like_model_compare, _has_model_token, _norm.
  rewrite !strip_idempotent, !extract_models_strip, !has_any_strip.
  assert (Hblank : strip user_text = [] -> _extract_models user_text = []).
  { intros E. unfold _extract_models, _norm. by rewrite E. }
  split; [by intros ->|]. split; [|split].
  - intros Hlen. destruct (strip user_text) eqn:E; [done|]. cbn [nonempty negb].
    destruct (Nat.leb_spec 2 (length (_extract_models user_text))); [done|lia].
  - intros Hne Hm. destruct (strip user_text) eqn:E; [done|]. cbn [nonempty negb].
    rewrite Hm. cbn [length Nat.leb nonempty]. by rewrite !andb_false_r.
  - intros Hlen. destruct (strip user_text) eqn:E.
    { rewrite Hblank in Hlen by done. discriminate. }
    cbn [nonempty negb]. rewrite Hlen. cbn [Nat.leb]. rewrite !andb_true_r.
    destruct (_extract_models user_text) as [|m ms]; [discriminate|]. cbn [nonempty].
    destruct (VS_RE_search (n :: l)); [done|]. cbn [negb andb].
    by destruct (_has_any user_text _).
Qed.

End MoreDecisionFacts.

Lemma handler_keeps_dialogue_well_formed_witness :
  exists turn, Decision.decision_turn None (py "請幫我選型") = Some turn /\
    match turn with
    | Decision.Asked st' reply => Decision.dialogue_ok st' /\ reply <> []
    | Decision.Answered stored' terms_from =>
        (stored' = None \/ stored' = None) /\
        forall st, terms_from = Some st ->
          Decision.finished st = true /\
          forall qu, qu ∈ Decision._questions ->
            is_Some (Decision.answers st !! Decision.key qu)
    end.
Proof.
  apply (handler_keeps_dialogue_well_formed None (py "請幫我選型")).
  intros st. discriminate.
Defined.

Lemma cancelled_dialogue_is_not_reentered_witness :
  exists st' reply,
    Decision.decision_turn (Some Decision.new_state) (py "取消") = Some (Decision.Asked st' reply) /\
    Decision.answers st' = Decision.answers Decision.new_state /\
    forall later, Decision.decision_turn (Some st') later
                  = Some (Decision.Answered (Some st') None).
Proof.
  apply (cancelled_dialogue_is_not_reentered Decision.new_state (py "取消")).
  - reflexivity.
  - vm_compute. reflexivity.
Defined.

Lemma three_answers_finish_the_dialogue_witness :
  exists st,
    Decision.run Decision.new_state [py "請幫我選型"; py "UVC 輻照度"; py "不確定"; py "沒有"]
      = Some st /\
    Decision.active st = false /\ Decision.finished st = true /\ Decision.step st = 3%Z /\
    Decision.answers st !! "object_band"%string = Some [].
Proof.
  destruct (three_answers_finish_the_dialogue
              (py "請幫我選型") (py "UVC 輻照度") (py "不確定") (py "沒有"))
    as (st & Hrun & Ha & Hf & Hs & Hw);
    [vm_compute; reflexivity|vm_compute; reflexivity|vm_compute; reflexivity|
     vm_compute; reflexivity|].
  exists st. split; [exact Hrun|]. split; [exact Ha|]. split; [exact Hf|].
  split; [exact Hs|]. rewrite Hw. vm_compute. reflexivity.
Defined.

(** ** The model key, placeholders and the retrieved snippets *)

Section MoreKeyFacts.
Context `{Unicode}.

Lemma shape_nonempty m : model_shape m -> m <> [].
Proof.
  intros (L & Hy & D & T & -> & HL & _). destruct L; [done|discriminate].
Qed.

(** X20: the model key of a question is its first model mention.
    [extract_model_key] returns the first of the mentions that
    [extract_model_mentions] finds in the stripped text, and the empty string
    when there is none; it is not empty exactly when [has_model_token] holds
    of the stripped text, and then has the shape of the pattern. *)
Theorem model_key_is_first_mention (user_text : pystr) :
  extract_model_key user_text
    = default [] (head (extract_model_mentions (strip user_text))) /\
  (extract_model_key user_text <> [] <-> has_model_token (strip user_text) = true) /\
  (extract_model_key user_text <> [] -> model_shape (extract_model_key user_text)).
Proof.
  unfold extract_model_key, extract_model_mentions, has_model_token, MODEL_REGEX_search.
  destruct (strip user_text) as [|c q] eqn:E; cbn [nonempty andb].
  { split; [done|]. split; [split; [done|discriminate]|done]. }
  destruct (MODEL_REGEX_findall (c :: q)) as [|m r] eqn:F; cbn [head].
  { split; [done|]. split; [|done]. split; [done|].
    rewrite bool_decide_eq_false_2; [discriminate|]. by intros [? ?]. }
  assert (Hm : model_shape m).
  { apply (scan_shape (c :: q) None 0%nat m). fold (MODEL_REGEX_findall (c :: q)).
    rewrite F. by left. }
  assert (Hs := shape_strip m Hm). assert (Hne := shape_nonempty m Hm).
  destruct (add_all_head m r) as [r' ->]; [by rewrite Hs|].
  rewrite Hs. cbn [head default]. split; [done|]. split; [|done].
  split; [|done]. intros _. apply bool_decide_eq_true_2. by eexists.
Qed.

(** X21: [clean_placeholder] applied twice is [clean_placeholder]; what it
    returns is the empty string or the stripped text, and never one of the
    placeholder words. *)
Theorem clean_placeholder_idempotent (text : pystr) :
  clean_placeholder (clean_placeholder text) = clean_placeholder text /\
  (clean_placeholder text = [] \/ clean_placeholder text = strip text) /\
  clean_placeholder text ∉ bad_placeholders.
Proof.
  assert (Hnil : clean_placeholder [] = []) by reflexivity.
  assert (Hbad : ([] : pystr) ∉ bad_placeholders).
  { intros Hin%list_elem_of_In. vm_compute in Hin.
    repeat (destruct Hin as [Hin|Hin]; [discriminate|]). done. }
  assert (Hcases : clean_placeholder text = [] \/
            (clean_placeholder text = strip text /\
             nonempty (strip text) = true /\
             existsb (fun x => bool_decide (strip text = x)) bad_placeholders = false /\
             (length (strip text) <=? 24)%nat
               && (contains (py "未提供") (strip text) || contains (py "資料中") (strip text))
             = false)).
  { unfold clean_placeholder.
    destruct (nonempty (strip text)); cbn [negb]; [|by left].
    destruct (existsb _ bad_placeholders); [by left|].
    destruct ((length (strip text) <=? 24)%nat && _); [by left|]. by right. }
  destruct Hcases as [-> | (-> & E1 & E2 & E3)].
  - split; [exact Hnil|]. split; [by left|exact Hbad].
  - split; [|split; [by right|]].
    + unfold clean_placeholder. by rewrite strip_idempotent, E1, E2, E3.
    + intros Hin.
      assert (existsb (fun x => bool_decide (strip text = x)) bad_placeholders = true);
        [|congruence].
      apply existsb_exists. exists (strip text). split; [by apply list_elem_of_In|].
      by apply bool_decide_eq_true_2.
Qed.

End MoreKeyFacts.

Section RagFacts.
Context `{Unicode}.
Variable RAG_DEDUPE_TEXT : bool.

Lemma insert_asc_perm x l : insert_asc x l ≡ₚ x :: l.
Proof.
  induction l as [|y r IH]; simpl; [done|].
  destruct (Qle_bool _ _); [done|]. rewrite IH. apply Permutation_swap.
Qed.

Lemma sorted_by_distance_perm l : sorted_by_distance l ≡ₚ l.
Proof.
  unfold sorted_by_distance. induction l as [|x r IH]; simpl; [done|].
  by rewrite insert_asc_perm, IH.
Qed.

Lemma insert_asc_sorted x l :
  StronglySorted (fun a b => (sort_key a <= sort_key b)%Q) l ->
  StronglySorted (fun a b => (sort_key a <= sort_key b)%Q) (insert_asc x l).
Proof.
  induction l as [|y r IH]; simpl; intros Hs.
  - repeat constructor.
  - apply StronglySorted_inv in Hs as [Hr Hy].
    destruct (Qle_bool (sort_key x) (sort_key y)) eqn:E.
    + apply Qle_bool_iff in E. constructor; [by constructor|].
      constructor; [done|]. eapply List.Forall_impl; [|exact Hy].
      intros z Hz. simpl in Hz. by eapply Qle_trans.
    + assert (Hyx : (sort_key y <= sort_key x)%Q).
      { apply Qlt_le_weak, Qnot_le_lt. intros Hle%Qle_bool_iff. congruence. }
      constructor; [by apply IH|].
      rewrite Forall_forall. intros z Hz. rewrite insert_asc_perm in Hz.
      apply elem_of_cons in Hz as [->|Hz]; [done|].
      rewrite Forall_forall in Hy. by apply Hy.
Qed.

Lemma sorted_by_distance_sorted l :
  StronglySorted (fun a b => (sort_key a <= sort_key b)%Q) (sorted_by_distance l).
Proof.
  unfold sorted_by_distance. induction l as [|x r IH]; simpl; [constructor|].
  by apply insert_asc_sorted.
Qed.

Lemma StronglySorted_sublist {A} (R : A -> A -> Prop) (l1 l2 : list A) :
  l1 `sublist_of` l2 -> StronglySorted R l2 -> StronglySorted R l1.
Proof.
  induction 1 as [|x l1 l2 Hsub IH|x l1 l2 Hsub IH]; intros Hs; [done| |].
  - apply StronglySorted_inv in Hs as [Hr Hx]. constructor; [by apply IH|].
    rewrite Forall_forall in Hx |- *. intros z Hz. apply Hx. by eapply elem_of_sublist.
  - apply StronglySorted_inv in Hs as [Hr _]. by apply IH.
Qed.

Lemma rag_loop_sublist m docs : forall count seen,
  rag_loop RAG_DEDUPE_TEXT m count seen docs `sublist_of` docs.
Proof.
  induction docs as [|d r IH]; intros count seen; cbn [rag_loop]; [done|].
  destruct (m <=? _)%Z; [by apply sublist_cons|].
  destruct (nonempty (strip (rag_text d))); cbn [negb]; [|by apply sublist_cons].
  destruct (RAG_DEDUPE_TEXT && _); [by apply sublist_cons|]. by apply sublist_skip.
Qed.

Lemma rag_loop_text m docs : forall count seen d,
  d ∈ rag_loop RAG_DEDUPE_TEXT m count seen docs -> strip (rag_text d) <> [].
Proof.
  induction docs as [|x r IH]; intros count seen d; cbn [rag_loop];
    [by intros ?%elem_of_nil|].
  destruct (m <=? _)%Z; [by apply IH|].
  destruct (nonempty (strip (rag_text x))) eqn:E; cbn [negb]; [|by apply IH].
  destruct (RAG_DEDUPE_TEXT && _); [by apply IH|].
  intros [->|Hin]%elem_of_cons; [|by eapply IH].
  by destruct (strip (rag_text x)).
Qed.

Lemma rag_loop_cap m docs : forall count seen key,
  (default 0 (count !! key)
   + length (List.filter (fun d => bool_decide (src_key d = key))
               (rag_loop RAG_DEDUPE_TEXT m count seen docs))
   <= Nat.max (default 0 (count !! key)) (Z.to_nat m))%nat.
Proof.
  induction docs as [|d r IH]; intros count seen key; cbn [rag_loop].
  { simpl. lia. }
  destruct (Z.leb_spec m (Z.of_nat (default 0%nat (count !! src_key d)))) as [Hfull|Hroom];
    [by apply IH|].
  destruct (nonempty (strip (rag_text d))); cbn [negb]; [|by apply IH].
  destruct (RAG_DEDUPE_TEXT && _); [by apply IH|].
  cbn [List.filter].
  match goal with |- context [rag_loop _ _ ?c ?s r] =>
    specialize (IH c s key) end.
  destruct (decide (src_key d = key)) as [<-|Hne].
  - rewrite bool_decide_eq_true_2 by done. rewrite lookup_insert_eq in IH.
    cbn [from_option length] in *. unfold Datatypes.id in *. lia.
  - rewrite bool_decide_eq_false_2 by done. rewrite lookup_insert_ne in IH by done. exact IH.
Qed.

Lemma rag_loop_dedupe m docs : forall count seen,
  NoDup ((fun d => text_key (strip (rag_text d))) <$> rag_loop true m count seen docs) /\
  forall d, d ∈ rag_loop true m count seen docs -> text_key (strip (rag_text d)) ∉ seen.
Proof.
  induction docs as [|x r IH]; intros count seen; cbn [rag_loop].
  { split; [constructor|]. by intros d ?%elem_of_nil. }
  destruct (m <=? _)%Z; [by apply IH|].
  destruct (nonempty (strip (rag_text x))); cbn [negb]; [|by apply IH].
  cbn [andb]. case_bool_decide as Hseen; [by apply IH|].
  match goal with |- context [rag_loop _ _ ?c ?s r] =>
    destruct (IH c s) as [Hnd Hout] end.
  split.
  - rewrite fmap_cons. apply NoDup_cons. split; [|done].
    intros (d & Hk & Hin)%list_elem_of_fmap. apply (Hout d Hin).
    apply elem_of_union. left. apply elem_of_singleton. by rewrite <- Hk.
  - intros d [->|Hin]%elem_of_cons; [done|].
    intros Hs. apply (Hout d Hin). apply elem_of_union. by right.
Qed.

(** X22: what [rag_dedupe_and_cap] returns.  Every document returned is
    one of the input with a text that is not blank; they come by ascending
    distance, a missing distance and the distance zero counting as 9999; no
    source has more than [per_source_max] of them; and when texts are
    deduplicated, no two have the same text key (the text with runs of white
    space collapsed, its first 260 characters, lowercased). *)
Theorem rag_dedupe_and_cap_spec (docs : list RagDoc) (per_source_max : Z) :
  (forall d, d ∈ rag_dedupe_and_cap RAG_DEDUPE_TEXT docs per_source_max ->
     d ∈ docs /\ strip (rag_text d) <> []) /\
  StronglySorted (fun a b => (sort_key a <= sort_key b)%Q)
    (rag_dedupe_and_cap RAG_DEDUPE_TEXT docs per_source_max) /\
  (forall key,
     (length (List.filter (fun d => bool_decide (src_key d = key))
                (rag_dedupe_and_cap RAG_DEDUPE_TEXT docs per_source_max))
      <= Z.to_nat per_source_max)%nat) /\
  (RAG_DEDUPE_TEXT = true ->
     NoDup ((fun d => text_key (strip (rag_text d)))
              <$> rag_dedupe_and_cap RAG_DEDUPE_TEXT docs per_source_max)).
Proof.
  unfold rag_dedupe_and_cap. destruct (nonempty docs); cbn [negb].
  2:{ split; [by intros d ?%elem_of_nil|]. split; [constructor|].
      split; [intros; simpl; lia|]. intros _. constructor. }
  split; [|split; [|split]].
  - intros d Hd. split; [|by eapply rag_loop_text].
    rewrite <- (sorted_by_distance_perm docs).
    eapply elem_of_sublist; [exact Hd|apply rag_loop_sublist].
  - eapply StronglySorted_sublist; [apply rag_loop_sublist|apply sorted_by_distance_sorted].
  - intros key.
    assert (Hc := rag_loop_cap per_source_max (sorted_by_distance docs) ∅ ∅ key).
    rewrite lookup_empty in Hc. cbn [from_option] in Hc. lia.
  - intros Hd. rewrite Hd. apply rag_loop_dedupe.
Qed.

End RagFacts.
